(** * Radius negotiation hub: protocol messages, negotiation rules and server

    A shallow embedding of
    - [protocol/messages]  (the wire frames),
    - [negotiation/rules]  (validation and the active-invoice store),
    - the hub server       (the connection registry, the handlers, the
                            broadcast helpers, the timers and [/api/reset]),
    followed by the properties proved about them.

    Conventions.
    - A JS [Map] that is only read by key is a [gmap]; the [clients] map is
      iterated in insertion order by the broadcast helpers and is therefore an
      insertion-ordered association list.
    - A JS [number] holding a price is a binary64 [float]; [Date.now()] is an
      integer number of milliseconds and is a [Z] supplied by the event.
    - Module-level mutable state is threaded explicitly through a [Hub] record.
    - [ws.send] is taken not to throw; each call is appended to the [sent]
      log of the [Hub].  Pings are control frames and are not logged.
    - [console.log] and [console.error] calls are not modelled, nor are the
      read-only endpoints [/api/agents] and [/api/transactions] and the
      shutdown on SIGINT. *)

From Stdlib Require Import ZArith Floats.
From stdpp Require Import base strings gmap list.

Local Open Scope Z_scope.

(** ** JavaScript values *)

(** Truthiness of a string: only the empty string is falsy. *)
Definition truthy (s : string) : bool := bool_decide (s ≠ "").

(** Truthiness of an optional string property ([undefined] is falsy). *)
Definition truthy_opt (o : option string) : bool :=
  match o with
  | Some s => truthy s
  | None => false
  end.

(** [o || d] for an optional string [o] and a string [d]. *)
Definition or_else (o : option string) (d : string) : string :=
  match o with
  | Some s => if truthy s then s else d
  | None => d
  end.

(** Library functions of the JavaScript runtime that the server calls on
    strings and numbers.  They only ever produce display text. *)
Class JsRuntime := {
  (** [`${n}`] for a number [n] *)
  numberToString : float → string;
  (** [text.match(/I'm\s+([A-Za-z0-9]+)/i)], giving the captured group *)
  matchIntro : string → option string;
  (** [text.match(/0x[a-fA-F0-9]{40}/g)]: [null] or every match *)
  matchAddresses : string → option (list string);
  (** [text.replace(pattern, replacement)] with a string pattern *)
  replaceFirst : string → string → string → string
}.

(** ** protocol/messages *)

Record OfferMsg := {
  offer_id : string;
  offer_price : float;
  offer_skill : string;
  offer_from : string
}.

Record AcceptMsg := {
  accept_id : string;
  accept_from : string
}.

Record PayMsg := {
  pay_id : string;
  pay_tx : string;
  pay_from : string
}.

Record ChatMsg := {
  chat_text : string;
  chat_from : string
}.

Record InvoiceMsg := {
  invmsg_id : string;
  invmsg_buyer : string;
  invmsg_seller : string;
  invmsg_price : float;
  invmsg_skill : string;
  invmsg_from : string
}.

(** The frames, tagged by [t].  [JSON.parse(..) as AnyMsg] is an unchecked
    cast, so a frame with any other tag reaches the router too: [OTHER]. *)
Inductive AnyMsg :=
| OFFER (o : OfferMsg)
| ACCEPT (a : AcceptMsg)
| PAY (p : PayMsg)
| CHAT (c : ChatMsg)
| INVOICE (i : InvoiceMsg)
| OTHER (t : string).

Inductive Kind := K_OFFER | K_ACCEPT | K_PAY | K_CHAT | K_INVOICE | K_OTHER.

Definition kind (m : AnyMsg) : Kind :=
  match m with
  | OFFER _ => K_OFFER
  | ACCEPT _ => K_ACCEPT
  | PAY _ => K_PAY
  | CHAT _ => K_CHAT
  | INVOICE _ => K_INVOICE
  | OTHER _ => K_OTHER
  end.

Definition is_chat (m : AnyMsg) : bool :=
  match m with
  | CHAT _ => true
  | _ => false
  end.

(** ** negotiation/rules *)

Record Invoice := {
  invoice_id : string;
  buyer : string;
  seller : string;
  invoice_price : float;
  invoice_skill : string;
  timestamp : Z
}.

(** [if (!offer.id || !offer.skill || offer.price <= 0 || !offer.from)] *)
Definition validateOffer (offer : OfferMsg) : bool :=
  if negb (truthy (offer_id offer))
     || negb (truthy (offer_skill offer))
     || PrimFloat.leb (offer_price offer) 0%float
     || negb (truthy (offer_from offer))
  then false
  else true.

Definition validateAccept (accept : AcceptMsg) (offer : option OfferMsg) : bool :=
  match offer with
  | None => false
  | Some o =>
      if bool_decide (accept_from accept = offer_from o) then false else true
  end.

(** [createInvoice] builds the invoice and stores it under the offer's id;
    [now] is the value of [Date.now()]. *)
Definition createInvoice (now : Z) (offer : OfferMsg) (acceptedBy : string)
    (activeInvoices : gmap string Invoice) : Invoice * gmap string Invoice :=
  let invoice :=
    {| invoice_id := offer_id offer;
       buyer := offer_from offer;
       seller := acceptedBy;
       invoice_price := offer_price offer;
       invoice_skill := offer_skill offer;
       timestamp := now |} in
  (invoice, <[offer_id offer := invoice]> activeInvoices).

Definition validatePayment (pay : PayMsg) (invoice : option Invoice) : bool :=
  match invoice with
  | None => false
  | Some inv =>
      if bool_decide (pay_from pay ≠ buyer inv) then false
      else if negb (truthy (pay_tx pay)) then false
      else true
  end.

Definition completeInvoice (invoiceId : string)
    (activeInvoices : gmap string Invoice)
    : option Invoice * gmap string Invoice :=
  match activeInvoices !! invoiceId with
  | Some invoice => (Some invoice, delete invoiceId activeInvoices)
  | None => (None, activeInvoices)
  end.

Definition getInvoice (id : string) (activeInvoices : gmap string Invoice)
    : option Invoice :=
  activeInvoices !! id.

Definition expiryTime : Z := 10 * 60 * 1000.

Definition expired (now : Z) (invoice : Invoice) : bool :=
  bool_decide (now - timestamp invoice > expiryTime).

(** The sweep visits every entry of the map and deletes the expired ones from
    the map it is iterating over. *)
Definition cleanupExpiredInvoices (now : Z)
    (activeInvoices : gmap string Invoice) : gmap string Invoice :=
  map_fold
    (λ id invoice acc, if expired now invoice then delete id acc else acc)
    activeInvoices activeInvoices.

(** ** The hub server: state *)

Inductive ConnectionType := agent | spectator.

Global Instance ConnectionType_eq_dec : EqDecision ConnectionType.
Proof. solve_decision. Defined.

(** The metadata object stored in [clients] for each socket. *)
Record Client := {
  client_id : string;
  isAlive : bool;
  address : option string;
  name : option string;
  client_type : option string;
  connectionType : ConnectionType
}.

(** A socket object; only its identity matters. *)
Definition WebSocket := nat.

Inductive TxStatus := completed | pending | failed.

Record TransactionRecord := {
  tx_id : string;
  tx_timestamp : Z;
  tx_from : string;
  tx_to : string;
  tx_amount : float;
  txHash : string;
  tx_status : TxStatus
}.

(** What [broadcast] is given: a frame object or an already encoded string. *)
Inductive Payload :=
| Frame (m : AnyMsg)
| Raw (s : string).

(** One call of [ws.send].  [rcpt_type] is the connection type of the
    receiving socket as the sending code knows it (the [client] entry it is
    iterating over, or the [connectionType] of the connection closure). *)
Record Delivery := {
  rcpt : WebSocket;
  rcpt_type : ConnectionType;
  body : Payload
}.

(** The module-level state of the server and of the rules module, the set of
    sockets whose [readyState] is [OPEN], and the log of [ws.send] calls. *)
Record Hub := {
  clients : list (WebSocket * Client);
  wsOpen : gset WebSocket;
  activeOffers : gmap string OfferMsg;
  activeInvoices : gmap string Invoice;
  transactions : list TransactionRecord;
  sent : list Delivery
}.

Definition initial : Hub :=
  {| clients := [];
     wsOpen := ∅;
     activeOffers := ∅;
     activeInvoices := ∅;
     transactions := [];
     sent := [] |}.

Definition set_clients (f : list (WebSocket * Client) → list (WebSocket * Client))
    (st : Hub) : Hub :=
  {| clients := f (clients st);
     wsOpen := wsOpen st;
     activeOffers := activeOffers st;
     activeInvoices := activeInvoices st;
     transactions := transactions st;
     sent := sent st |}.

Definition set_wsOpen (f : gset WebSocket → gset WebSocket) (st : Hub) : Hub :=
  {| clients := clients st;
     wsOpen := f (wsOpen st);
     activeOffers := activeOffers st;
     activeInvoices := activeInvoices st;
     transactions := transactions st;
     sent := sent st |}.

Definition set_activeOffers (f : gmap string OfferMsg → gmap string OfferMsg)
    (st : Hub) : Hub :=
  {| clients := clients st;
     wsOpen := wsOpen st;
     activeOffers := f (activeOffers st);
     activeInvoices := activeInvoices st;
     transactions := transactions st;
     sent := sent st |}.

Definition set_activeInvoices (f : gmap string Invoice → gmap string Invoice)
    (st : Hub) : Hub :=
  {| clients := clients st;
     wsOpen := wsOpen st;
     activeOffers := activeOffers st;
     activeInvoices := f (activeInvoices st);
     transactions := transactions st;
     sent := sent st |}.

Definition set_transactions (f : list TransactionRecord → list TransactionRecord)
    (st : Hub) : Hub :=
  {| clients := clients st;
     wsOpen := wsOpen st;
     activeOffers := activeOffers st;
     activeInvoices := activeInvoices st;
     transactions := f (transactions st);
     sent := sent st |}.

(** [ws.send(..)] on each of [ds], in order. *)
Definition send (ds : list Delivery) (st : Hub) : Hub :=
  {| clients := clients st;
     wsOpen := wsOpen st;
     activeOffers := activeOffers st;
     activeInvoices := activeInvoices st;
     transactions := transactions st;
     sent := sent st ++ ds |}.

(** *** The [clients] map *)

(** [clients.get(ws)] *)
Fixpoint clients_get (ws : WebSocket) (l : list (WebSocket * Client))
    : option Client :=
  match l with
  | [] => None
  | (w, c) :: l' => if decide (w = ws) then Some c else clients_get ws l'
  end.

(** [clients.set(ws, c)]: an existing key keeps its position. *)
Fixpoint clients_set (ws : WebSocket) (c : Client)
    (l : list (WebSocket * Client)) : list (WebSocket * Client) :=
  match l with
  | [] => [(ws, c)]
  | (w, c') :: l' =>
      if decide (w = ws) then (w, c) :: l' else (w, c') :: clients_set ws c l'
  end.

(** [clients.delete(ws)] *)
Definition clients_delete (ws : WebSocket) (l : list (WebSocket * Client))
    : list (WebSocket * Client) :=
  filter (λ e, e.1 ≠ ws) l.

(** Assignment to properties of the object stored under [ws]. *)
Fixpoint clients_update (ws : WebSocket) (f : Client → Client)
    (l : list (WebSocket * Client)) : list (WebSocket * Client) :=
  match l with
  | [] => []
  | (w, c) :: l' =>
      if decide (w = ws) then (w, f c) :: l'
      else (w, c) :: clients_update ws f l'
  end.

(** Assignment to properties of the first stored object that satisfies [p]
    (a [for .. of clients.entries()] loop that ends in [break]). *)
Fixpoint clients_update_first (p : Client → bool) (f : Client → Client)
    (l : list (WebSocket * Client)) : list (WebSocket * Client) :=
  match l with
  | [] => []
  | (w, c) :: l' =>
      if p c then (w, f c) :: l'
      else (w, c) :: clients_update_first p f l'
  end.

(** The first stored object that satisfies [p]. *)
Fixpoint clients_find (p : Client → bool) (l : list (WebSocket * Client))
    : option Client :=
  match l with
  | [] => None
  | (_, c) :: l' => if p c then Some c else clients_find p l'
  end.

Definition set_address (a : string) (c : Client) : Client :=
  {| client_id := client_id c;
     isAlive := isAlive c;
     address := Some a;
     name := name c;
     client_type := client_type c;
     connectionType := connectionType c |}.

Definition set_name (n : string) (c : Client) : Client :=
  {| client_id := client_id c;
     isAlive := isAlive c;
     address := address c;
     name := Some n;
     client_type := client_type c;
     connectionType := connectionType c |}.

Definition set_isAlive (b : bool) (c : Client) : Client :=
  {| client_id := client_id c;
     isAlive := b;
     address := address c;
     name := name c;
     client_type := client_type c;
     connectionType := connectionType c |}.

(** [if (client && !client.address) client.address = a]; nothing happens when
    [ws] has no entry. *)
Definition bind_address (a : string) (c : Client) : Client :=
  if truthy_opt (address c) then c else set_address a c.

(** [storedClient.address === a] *)
Definition has_address (a : string) (c : Client) : bool :=
  bool_decide (address c = Some a).

Definition is_open (st : Hub) (ws : WebSocket) : bool :=
  bool_decide (ws ∈ wsOpen st).

Definition is_sender (sender : option WebSocket) (ws : WebSocket) : bool :=
  bool_decide (sender = Some ws).

(** ** The hub server: helpers *)

(** [address.split('').reduce((acc, char) => acc + char.charCodeAt(0), 0)];
    an address is a string of one-byte characters. *)
Fixpoint hashValue (address : string) : nat :=
  match address with
  | EmptyString => 0%nat
  | String ch rest => (Ascii.nat_of_ascii ch + hashValue rest)%nat
  end.

Definition agentTypes : list string :=
  ["Developer"; "Designer"; "Marketer"; "Writer"; "Analyst";
   "Consultant"; "Strategist"; "Researcher"; "Engineer"; "Artist"].

Definition adjectives : list string :=
  ["Swift"; "Clever"; "Bright"; "Expert"; "Skilled";
   "Creative"; "Talented"; "Brilliant"; "Resourceful"; "Innovative"].

Definition generateAgentName (address : string) : string :=
  let h := hashValue address in
  let adjIndex := (h mod length adjectives)%nat in
  let typeIndex := ((h * 13) mod length agentTypes)%nat in
  nth adjIndex adjectives "" +:+ " " +:+ nth typeIndex agentTypes "".

(** The frame kinds [broadcast] lets through to a spectator. *)
Definition spectator_kind (m : AnyMsg) : bool :=
  match m with
  | CHAT _ | OFFER _ | ACCEPT _ | PAY _ => true
  | INVOICE _ | OTHER _ => false
  end.

(** The sends of one pass of [broadcast] over [clients.entries()]. *)
Definition broadcast_to (message : Payload) (sender : option WebSocket)
    (st : Hub) : list Delivery :=
  flat_map
    (λ '(ws, client),
      if negb (is_sender sender ws) && is_open st ws then
        match connectionType client with
        | spectator =>
            match message with
            | Frame m =>
                if spectator_kind m
                then [{| rcpt := ws; rcpt_type := spectator; body := message |}]
                else []
            | Raw _ => []
            end
        | agent => [{| rcpt := ws; rcpt_type := agent; body := message |}]
        end
      else [])
    (clients st).

Definition broadcast (message : Payload) (sender : option WebSocket)
    (st : Hub) : Hub :=
  send (broadcast_to message sender st) st.

(** [sendToAddress]: the first open agent connection bound to [address] gets
    the frame; the result tells whether there was one. *)
Fixpoint sendToAddress_find (addr : string) (st : Hub)
    (l : list (WebSocket * Client)) : option WebSocket :=
  match l with
  | [] => None
  | (ws, client) :: l' =>
      if has_address addr client && is_open st ws then
        match connectionType client with
        | agent => Some ws
        | spectator => sendToAddress_find addr st l'
        end
      else sendToAddress_find addr st l'
  end.

Definition sendToAddress (addr : string) (message : AnyMsg) (st : Hub)
    : bool * Hub :=
  match sendToAddress_find addr st (clients st) with
  | Some ws =>
      (true,
       send [{| rcpt := ws; rcpt_type := agent; body := Frame message |}] st)
  | None => (false, st)
  end.

Definition broadcastToAgents_to (message : Payload) (sender : option WebSocket)
    (st : Hub) : list Delivery :=
  flat_map
    (λ '(ws, client),
      if negb (is_sender sender ws) && is_open st ws
         && bool_decide (connectionType client = agent)
      then [{| rcpt := ws; rcpt_type := agent; body := message |}]
      else [])
    (clients st).

Definition broadcastToAgents (message : Payload) (sender : option WebSocket)
    (st : Hub) : Hub :=
  send (broadcastToAgents_to message sender st) st.

Definition system_chat (text : string) : AnyMsg :=
  CHAT {| chat_text := text; chat_from := "system" |}.

(** [client?.name || generateAgentName(a)] for the entry of [ws]. *)
Definition display_name (ws : WebSocket) (a : string) (st : Hub) : string :=
  match clients_get ws (clients st) with
  | Some client => or_else (name client) (generateAgentName a)
  | None => generateAgentName a
  end.

(** ** The hub server: handlers *)

Section Handlers.

Context `{JsRuntime}.

Definition handleOffer (offer : OfferMsg) (ws : WebSocket) (st : Hub) : Hub :=
  if negb (validateOffer offer) then st
  else
    let st := set_clients (clients_update ws (bind_address (offer_from offer))) st in
    let agentName := display_name ws (offer_from offer) st in
    let st := set_activeOffers (insert (offer_id offer) offer) st in
    let st := broadcastToAgents (Frame (OFFER offer)) (Some ws) st in
    let spectatorMsg :=
      system_chat (agentName +:+ " offered "
                   +:+ numberToString (offer_price offer)
                   +:+ " for skill: " +:+ offer_skill offer) in
    broadcast (Frame spectatorMsg) (Some ws) st.

(** The name shown for the party that made the offer. *)
Definition offerorName (offer : OfferMsg) (st : Hub) : string :=
  match clients_find (has_address (offer_from offer)) (clients st) with
  | Some storedClient =>
      or_else (name storedClient) (generateAgentName (offer_from offer))
  | None => String.substring 0 6 (offer_from offer) +:+ "..."
  end.

Definition handleAccept (now : Z) (accept : AcceptMsg) (ws : WebSocket)
    (st : Hub) : Hub :=
  let offer := activeOffers st !! accept_id accept in
  if negb (validateAccept accept offer) then st
  else
    let st := set_clients (clients_update ws (bind_address (accept_from accept))) st in
    let acceptorName := display_name ws (accept_from accept) st in
    match offer with
    | None => st
    | Some offer =>
        if bool_decide (accept_from accept = offer_from offer) then st
        else
          let '(invoice, invoices) :=
            createInvoice now offer (accept_from accept) (activeInvoices st) in
          let offeror := offerorName offer st in
          let st := set_activeInvoices (λ _, invoices) st in
          let st := broadcastToAgents (Frame (ACCEPT accept)) (Some ws) st in
          let spectatorMsg :=
            system_chat (acceptorName +:+ " accepted offer "
                         +:+ accept_id accept +:+ " from " +:+ offeror) in
          let st := broadcast (Frame spectatorMsg) (Some ws) st in
          let invoiceMsg :=
            INVOICE {| invmsg_id := invoice_id invoice;
                       invmsg_buyer := buyer invoice;
                       invmsg_seller := seller invoice;
                       invmsg_price := invoice_price invoice;
                       invmsg_skill := invoice_skill invoice;
                       invmsg_from := "system" |} in
          let st := (sendToAddress (buyer invoice) invoiceMsg st).2 in
          (sendToAddress (seller invoice) invoiceMsg st).2
    end.

(** [client.address = pay.from] and, in the same branch, the generated name
    when the entry has none. *)
Definition bind_payer (a : string) (c : Client) : Client :=
  if truthy_opt (address c) then c
  else
    let c := set_address a c in
    if truthy_opt (name c) then c else set_name (generateAgentName a) c.

Definition handlePayment (now : Z) (pay : PayMsg) (ws : WebSocket)
    (st : Hub) : Hub :=
  let invoice := getInvoice (pay_id pay) (activeInvoices st) in
  if negb (validatePayment pay invoice) then st
  else
    let st := set_clients (clients_update ws (bind_payer (pay_from pay))) st in
    let payerName := display_name ws (pay_from pay) st in
    match invoice with
    | None => st
    | Some invoice =>
        let st :=
          set_activeInvoices (λ invs, (completeInvoice (pay_id pay) invs).2) st in
        let st := set_activeOffers (delete (pay_id pay)) st in
        let transaction :=
          {| tx_id := pay_id pay;
             tx_timestamp := now;
             tx_from := buyer invoice;
             tx_to := seller invoice;
             tx_amount := invoice_price invoice;
             txHash := pay_tx pay;
             tx_status := completed |} in
        let st := set_transactions (λ txs, txs ++ [transaction]) st in
        let st := broadcastToAgents (Frame (PAY pay)) (Some ws) st in
        let spectatorMsg :=
          system_chat (payerName +:+ " completed payment for " +:+ pay_id pay
                       +:+ " (tx: " +:+ String.substring 0 8 (pay_tx pay) +:+ "...)") in
        broadcast (Frame spectatorMsg) (Some ws) st
    end.

(** The entry named in the log line of a chat gets a generated name when it
    has none. *)
Definition name_if_missing (a : string) (c : Client) : Client :=
  if truthy_opt (name c) then c else set_name (generateAgentName a) c.

(** Replacement of each matched address by the name of the first client bound
    to it that has a name. *)
Definition replace_addresses (addresses : list string) (text : string)
    (st : Hub) : string :=
  fold_left
    (λ modifiedText addr,
      match clients_find (λ c, has_address addr c && truthy_opt (name c))
                         (clients st) with
      | Some storedClient =>
          replaceFirst modifiedText addr (default "" (name storedClient))
      | None => modifiedText
      end)
    addresses text.

Definition handleChat (chat : ChatMsg) (ws : WebSocket) (st : Hub) : Hub :=
  let st :=
    if bool_decide (chat_from chat ≠ "system")
    then set_clients (clients_update ws (bind_address (chat_from chat))) st
    else st in
  let st :=
    if bool_decide (chat_from chat ≠ "system")
    then set_clients
           (clients_update_first (has_address (chat_from chat))
                                 (name_if_missing (chat_from chat))) st
    else st in
  let broadcastMessage :=
    if bool_decide (chat_from chat = "system") then
      match matchAddresses (chat_text chat) with
      | Some addresses =>
          {| chat_text := replace_addresses addresses (chat_text chat) st;
             chat_from := chat_from chat |}
      | None => chat
      end
    else chat in
  broadcast (Frame (CHAT broadcastMessage)) (Some ws) st.

Definition handleMessage (now : Z) (message : AnyMsg) (ws : WebSocket)
    (st : Hub) : Hub :=
  match message with
  | OFFER o => handleOffer o ws st
  | ACCEPT a => handleAccept now a ws st
  | PAY p => handlePayment now p ws st
  | CHAT c => handleChat c ws st
  | INVOICE _ | OTHER _ => st
  end.

End Handlers.

(** ** The hub server: connections, timers and the HTTP side channel *)

Definition capabilityDenied : AnyMsg :=
  system_chat "As a spectator, you can only send chat messages.".

Definition resetMsg : AnyMsg :=
  system_chat
    "Negotiation state has been reset. All previous transactions and offers cleared.".

Definition welcome (connectionType : ConnectionType) (id : string) : AnyMsg :=
  match connectionType with
  | spectator =>
      system_chat
        "Welcome to the Radius Negotiation Hub! You are connected as a spectator."
  | agent =>
      system_chat
        ("Welcome to the Radius Negotiation Hub! You are agent " +:+ id +:+ ".")
  end.

Section Connections.

Context `{JsRuntime}.

(** [if (match && match[1] && !client.name) client.name = match[1]] *)
Definition adopt_intro (text : string) (c : Client) : Client :=
  match matchIntro text with
  | Some n => if truthy n && negb (truthy_opt (name c)) then set_name n c else c
  | None => c
  end.

(** The ['message'] listener of the socket [ws].  [data] is [None] when
    [JSON.parse] throws; the exception is caught and logged. *)
Definition onMessage (now : Z) (data : option AnyMsg) (ws : WebSocket)
    (st : Hub) : Hub :=
  match data with
  | None => st
  | Some message =>
      let client := clients_get ws (clients st) in
      if bool_decide (connectionType <$> client = Some spectator)
         && negb (is_chat message)
      then
        send [{| rcpt := ws; rcpt_type := spectator;
                 body := Frame capabilityDenied |}] st
      else
        let st :=
          match message with
          | CHAT c =>
              if bool_decide (chat_from c ≠ "system") then
                set_clients
                  (clients_update ws
                     (λ client, adopt_intro (chat_text c)
                                  (bind_address (chat_from c) client))) st
              else st
          | _ => st
          end in
        handleMessage now message ws st
  end.

(** The ['connection'] listener: [id] is the generated short id, [qtype] and
    [qname] are the [type] and [name] query parameters. *)
Definition onConnection (ws : WebSocket) (id : string)
    (qtype qname : option string) (st : Hub) : Hub :=
  let connectionType :=
    if bool_decide (qtype = Some "spectator") then spectator else agent in
  let providedName := if truthy_opt qname then qname else None in
  let st :=
    set_clients
      (clients_set ws
         {| client_id := id;
            isAlive := true;
            address := None;
            name := providedName;
            client_type := None;
            connectionType := connectionType |}) st in
  let st := set_wsOpen (union {[ws]}) st in
  send [{| rcpt := ws; rcpt_type := connectionType;
           body := Frame (welcome connectionType id) |}] st.

Definition onPong (ws : WebSocket) (st : Hub) : Hub :=
  set_clients (clients_update ws (set_isAlive true)) st.

(** ['close']: the socket is closed and its entry is removed. *)
Definition onClose (ws : WebSocket) (st : Hub) : Hub :=
  set_wsOpen (λ s, s ∖ {[ws]}) (set_clients (clients_delete ws) st).

(** ['error']: the entry is removed and the socket is terminated. *)
Definition onError (ws : WebSocket) (st : Hub) : Hub :=
  set_wsOpen (λ s, s ∖ {[ws]}) (set_clients (clients_delete ws) st).

(** The heartbeat: an entry that is not alive is deleted and its socket
    terminated; the others are marked not alive and pinged. *)
Definition heartbeat (st : Hub) : Hub :=
  let dead :=
    list_to_set (fst <$> filter (λ e, isAlive e.2 = false) (clients st)) in
  let st :=
    set_clients
      (λ l, (λ e, (e.1, set_isAlive false e.2))
              <$> filter (λ e, isAlive e.2 = true) l) st in
  set_wsOpen (λ s, s ∖ dead) st.

(** The cleanup timer calls [cleanupExpiredInvoices]. *)
Definition cleanup (now : Z) (st : Hub) : Hub :=
  set_activeInvoices (cleanupExpiredInvoices now) st.

(** [/api/reset] *)
Definition reset_to (st : Hub) : list Delivery :=
  flat_map
    (λ '(ws, client),
      if is_open st ws
      then [{| rcpt := ws; rcpt_type := connectionType client;
               body := Frame resetMsg |}]
      else [])
    (clients st).

Definition apiReset (st : Hub) : Hub :=
  let st := set_transactions (λ _, []) st in
  let st := set_activeOffers (λ _, ∅) st in
  send (reset_to st) st.

(** *** The event loop *)

Inductive Event :=
| Connection (ws : WebSocket) (id : string) (qtype qname : option string)
| Message (ws : WebSocket) (now : Z) (data : option AnyMsg)
| Pong (ws : WebSocket)
| Close (ws : WebSocket)
| Error (ws : WebSocket)
| NotOpen (ws : WebSocket)  (* the [readyState] of [ws] leaves [OPEN] *)
| Heartbeat
| Cleanup (now : Z)
| ApiReset.

Definition step (e : Event) (st : Hub) : Hub :=
  match e with
  | Connection ws id qtype qname => onConnection ws id qtype qname st
  | Message ws now data => onMessage now data ws st
  | Pong ws => onPong ws st
  | Close ws => onClose ws st
  | Error ws => onError ws st
  | NotOpen ws => set_wsOpen (λ s, s ∖ {[ws]}) st
  | Heartbeat => heartbeat st
  | Cleanup now => cleanup now st
  | ApiReset => apiReset st
  end.

Definition run (es : list Event) (st : Hub) : Hub :=
  fold_left (λ st e, step e st) es st.

(** The states of the server: those a sequence of events leads to from the
    state at start-up. *)
Inductive reachable : Hub → Prop :=
| reachable_initial : reachable initial
| reachable_step e st : reachable st → reachable (step e st).

End Connections.

(** ** The hub server: the roster of [/api/agents] *)

(** An entry of the roster as it is built, before the balances are fetched
    from the ledger service. *)
Record AgentInfo := {
  agent_id : string;
  agent_name : string;
  agent_address : string;
  fullAddress : option string;
  balance : float;
  agent_type : string;
  balanceDisplay : option string
}.

(** [`${a?.substring(0, 6)}...${a?.substring(a.length - 4)}`]; a negative
    start counts as 0. *)
Definition shortAddress (a : string) : string :=
  String.substring 0 6 a +:+ "..."
  +:+ String.substring (String.length a - 4) 4 a.

(** [client => client.address && client.connectionType === 'agent'] *)
Definition listed (client : Client) : bool :=
  truthy_opt (address client)
  && bool_decide (connectionType client = agent).

Definition agentInfo (client : Client) : AgentInfo :=
  let generatedName := generateAgentName (default "" (address client)) in
  {| agent_id := client_id client;
     agent_name := or_else (name client) generatedName;
     agent_address := shortAddress (default "" (address client));
     fullAddress := address client;
     balance := 0%float;
     agent_type := or_else (client_type client) "Agent";
     balanceDisplay := None |}.

(** [Array.from(clients.values()).filter(..).map(..)] *)
Definition agentsList (st : Hub) : list AgentInfo :=
  agentInfo <$> filter (λ client, listed client = true) (snd <$> clients st).

(** ** Vocabulary of the properties *)

(** The record that settling [invoice] with [pay] at time [now] appends. *)
Definition settlement (now : Z) (pay : PayMsg) (invoice : Invoice)
    : TransactionRecord :=
  {| tx_id := pay_id pay;
     tx_timestamp := now;
     tx_from := buyer invoice;
     tx_to := seller invoice;
     tx_amount := invoice_price invoice;
     txHash := pay_tx pay;
     tx_status := completed |}.

(** The router's role check: the sender has an entry of type spectator. *)
Definition sender_is_spectator (ws : WebSocket) (st : Hub) : Prop :=
  connectionType <$> clients_get ws (clients st) = Some spectator.

Global Instance sender_is_spectator_dec (ws : WebSocket) (st : Hub) :
  Decision (sender_is_spectator ws st).
Proof. unfold sender_is_spectator. apply _. Defined.

(** The invoice that accepting [offer] by [acceptedBy] at time [now] creates. *)
Definition invoice_for (now : Z) (offer : OfferMsg) (acceptedBy : string)
    : Invoice :=
  {| invoice_id := offer_id offer;
     buyer := offer_from offer;
     seller := acceptedBy;
     invoice_price := offer_price offer;
     invoice_skill := offer_skill offer;
     timestamp := now |}.

(** No invoice in the store has the same party on both sides. *)
Definition invoices_distinct (st : Hub) : Prop :=
  ∀ id inv, activeInvoices st !! id = Some inv → buyer inv ≠ seller inv.

(** A send to a spectator carries a frame of kind CHAT, OFFER, ACCEPT or PAY. *)
Definition spectator_ok (d : Delivery) : Prop :=
  rcpt_type d = spectator → ∃ m, body d = Frame m ∧ spectator_kind m = true.


(** The frames that get as far as the address binding of their handler: not
    denied by the router's role check, and an OFFER, ACCEPT or PAY that passes
    its validation or a CHAT whose [from] is not "system". *)
Definition passes (m : AnyMsg) (ws : WebSocket) (st : Hub) : bool :=
  if bool_decide (sender_is_spectator ws st) && negb (is_chat m) then false
  else
    match m with
    | OFFER o => validateOffer o
    | ACCEPT a => validateAccept a (activeOffers st !! accept_id a)
    | PAY p => validatePayment p (getInvoice (pay_id p) (activeInvoices st))
    | CHAT c => bool_decide (chat_from c ≠ "system")
    | INVOICE _ | OTHER _ => false
    end.


(** The sockets of the connection table with their connection types. *)
Definition roles (l : list (WebSocket * Client))
    : list (WebSocket * ConnectionType) :=
  (λ e, (e.1, connectionType e.2)) <$> l.

(** A send that suits a spectator if it goes to one, and whose receiver is in
    the table [l] with the connection type the sending code took it to have. *)
Definition delivery_ok (l : list (WebSocket * Client)) (d : Delivery) : Prop :=
  spectator_ok d ∧ (rcpt d, rcpt_type d) ∈ roles l.

(** [st'] comes from [st] by such sends only, as far as the send log and the
    connection types go. *)
Definition emits (st st' : Hub) : Prop :=
  roles (clients st') = roles (clients st)
  ∧ ∃ ds, sent st' = sent st ++ ds ∧ Forall (delivery_ok (clients st)) ds.

(** The events that neither add nor remove an entry of the connection table. *)
Definition keeps_connections (e : Event) : Prop :=
  match e with
  | Connection _ _ _ _ | Close _ | Error _ | Heartbeat => False
  | Message _ _ _ | Pong _ | NotOpen _ | Cleanup _ | ApiReset => True
  end.

(** The connection table after a frame from [ws] that [passes]: the
    listener's update for a CHAT, then the handler's. *)
Definition clients_after `{JsRuntime} (m : AnyMsg) (ws : WebSocket)
    (l : list (WebSocket * Client)) : list (WebSocket * Client) :=
  match m with
  | OFFER o => clients_update ws (bind_address (offer_from o)) l
  | ACCEPT a => clients_update ws (bind_address (accept_from a)) l
  | PAY p => clients_update ws (bind_payer (pay_from p)) l
  | CHAT c =>
      clients_update_first (has_address (chat_from c))
        (name_if_missing (chat_from c))
        (clients_update ws (bind_address (chat_from c))
           (clients_update ws
              (λ client, adopt_intro (chat_text c)
                           (bind_address (chat_from c) client)) l))
  | INVOICE _ | OTHER _ => l
  end.


(** Every open offer is stored under its own id and passes [validateOffer]. *)
Definition offers_wf (st : Hub) : Prop :=
  ∀ id o, activeOffers st !! id = Some o →
    offer_id o = id ∧ validateOffer o = true.

(** Every invoice is stored under its own non-empty id, and its buyer and
    skill are not empty. *)
Definition invoices_wf (st : Hub) : Prop :=
  ∀ id inv, activeInvoices st !! id = Some inv →
    invoice_id inv = id ∧ id ≠ "" ∧ buyer inv ≠ ""
    ∧ invoice_skill inv ≠ "" ∧ buyer inv ≠ seller inv.

(** A record of the transaction log as settlements write it. *)
Definition transaction_wf (t : TransactionRecord) : Prop :=
  tx_status t = completed ∧ tx_id t ≠ "" ∧ txHash t ≠ ""
  ∧ tx_from t ≠ "" ∧ tx_from t ≠ tx_to t.

(** No socket has two entries in the connection table. *)
Definition sockets_unique (st : Hub) : Prop :=
  NoDup (fst <$> clients st).

(** What a handler may send for a frame that came from [ws], with [l] the
    connection table: a frame that is not an INVOICE to another socket, or an
    INVOICE to an agent connection bound to its buyer or to its seller. *)
Definition handler_delivery (ws : WebSocket) (l : list (WebSocket * Client))
    (d : Delivery) : Prop :=
  (rcpt d ≠ ws ∧ ∀ i, body d ≠ Frame (INVOICE i))
  ∨ (∃ i c, body d = Frame (INVOICE i)
            ∧ (rcpt d, c) ∈ l
            ∧ connectionType c = agent
            ∧ (address c = Some (invmsg_buyer i)
               ∨ address c = Some (invmsg_seller i))).

(** [st'] has the send log of [st0] followed by handler deliveries. *)
Definition handler_sends (ws : WebSocket) (st0 st' : Hub) : Prop :=
  ∃ ds, sent st' = sent st0 ++ ds
        ∧ Forall (handler_delivery ws (clients st')) ds.





(** ** Sample data *)

(** A runtime for evaluating the server on sample frames; the display text it
    produces is not examined. *)
Definition sample_runtime : JsRuntime :=
  {| numberToString := λ _, "0.5";
     matchIntro := λ _, None;
     matchAddresses := λ _, None;
     replaceFirst := λ text _ _, text |}.

Definition offer_o1 : OfferMsg :=
  {| offer_id := "o1"; offer_price := 0.5%float; offer_skill := "design";
     offer_from := "A" |}.

Definition invoice_o1 : Invoice :=
  {| invoice_id := "o1"; buyer := "A"; seller := "B";
     invoice_price := 0.5%float; invoice_skill := "design"; timestamp := 1000 |}.

Definition pay_o1 : PayMsg :=
  {| pay_id := "o1"; pay_tx := "r1"; pay_from := "A" |}.

Definition sample_client (id : string) (t : ConnectionType) : Client :=
  {| client_id := id; isAlive := true; address := None; name := None;
     client_type := None; connectionType := t |}.

(** Two agents (sockets 1 and 2) and a spectator (socket 3), all open. *)
Definition three_connected : Hub :=
  {| clients := [(1%nat, sample_client "c1" agent);
                 (2%nat, sample_client "c2" agent);
                 (3%nat, sample_client "c3" spectator)];
     wsOpen := {[1%nat; 2%nat; 3%nat]};
     activeOffers := ∅;
     activeInvoices := ∅;
     transactions := [];
     sent := [] |}.

(** The same connections with offer "o1" open and invoiced to "B". *)
Definition invoiced_o1 : Hub :=
  {| clients := [(1%nat, set_address "A" (sample_client "c1" agent));
                 (2%nat, set_address "B" (sample_client "c2" agent));
                 (3%nat, sample_client "c3" spectator)];
     wsOpen := {[1%nat; 2%nat; 3%nat]};
     activeOffers := {["o1" := offer_o1]};
     activeInvoices := {["o1" := invoice_o1]};
     transactions := [];
     sent := [] |}.

(** "A" offers "o1"; "B" accepts it at 2000; "C" accepts it at 3000. *)
Definition offered_o1 : Hub :=
  step (H := sample_runtime)
    (Message 1%nat 1000 (Some (OFFER offer_o1))) three_connected.

Definition accept_B : AcceptMsg := {| accept_id := "o1"; accept_from := "B" |}.
Definition accept_C : AcceptMsg := {| accept_id := "o1"; accept_from := "C" |}.

(** A second offer under the id "o1", from "B". *)
Definition offer_o1_again : OfferMsg :=
  {| offer_id := "o1"; offer_price := 2%float; offer_skill := "logo";
     offer_from := "B" |}.

(** An offer that fails validation: its price is zero. *)
Definition offer_free : OfferMsg :=
  {| offer_id := "o9"; offer_price := 0%float; offer_skill := "x";
     offer_from := "A" |}.

Definition chat_from_B : ChatMsg := {| chat_text := "hi"; chat_from := "B" |}.

(** Two agents and a spectator connect; "A" offers, "B" accepts. *)
Definition sample_session : list Event :=
  [Connection 1%nat "c1" None None;
   Connection 2%nat "c2" None None;
   Connection 3%nat "c3" (Some "spectator") None;
   Message 1%nat 1000 (Some (OFFER offer_o1));
   Message 2%nat 2000 (Some (ACCEPT accept_B))].

Definition session_state : Hub := run (H := sample_runtime) sample_session initial.

(** The narration of the offer, as sent to the spectator on socket 3. *)
Definition narration_to_spectator : Delivery :=
  {| rcpt := 3%nat; rcpt_type := spectator;
     body := Frame (system_chat
                      "Creative Consultant offered 0.5 for skill: design") |}.

(** The sample session followed by the payment of "o1". *)
Definition settled_session : list Event :=
  sample_session ++ [Message 1%nat 3000 (Some (PAY pay_o1))].

Definition settled_state : Hub :=
  run (H := sample_runtime) settled_session initial.


(** A frame on socket 1 and a frame on socket 2. *)
Definition two_frames : list Event :=
  [Message 1%nat 1000 (Some (OFFER offer_o1));
   Message 2%nat 2000 (Some (CHAT chat_from_B))].

(** * Properties *)

(** ** The rules module *)

Lemma truthy_true (s : string) : truthy s = true ↔ s ≠ "".
Proof. unfold truthy. by rewrite bool_decide_eq_true. Qed.

Lemma truthy_false (s : string) : truthy s = false ↔ s = "".
Proof.
  unfold truthy. rewrite bool_decide_eq_false.
  split; [intros Hs; by destruct (decide (s = "")) | intros -> Hs; done].
Qed.

Lemma validatePayment_true (pay : PayMsg) (invoice : option Invoice) :
  validatePayment pay invoice = true ↔
  ∃ inv, invoice = Some inv ∧ pay_from pay = buyer inv ∧ pay_tx pay ≠ "".
Proof.
  unfold validatePayment. destruct invoice as [inv|].
  - case_bool_decide as Hfrom.
    + split; [done | intros (? & [= <-] & ? & ?); done].
    + destruct (truthy (pay_tx pay)) eqn:Htx; simpl.
      * apply truthy_true in Htx. split; [|done]. intros _. exists inv.
        split_and!; [done | | done].
        by destruct (decide (pay_from pay = buyer inv)).
      * apply truthy_false in Htx.
        split; [done | intros (? & _ & _ & ?); done].
  - split; [done | intros (? & ? & _); done].
Qed.

Lemma validateAccept_true (accept : AcceptMsg) (offer : option OfferMsg) :
  validateAccept accept offer = true ↔
  ∃ o, offer = Some o ∧ accept_from accept ≠ offer_from o.
Proof.
  unfold validateAccept. destruct offer as [o|].
  - case_bool_decide as Hfrom.
    + split; [done | intros (? & [= <-] & ?); done].
    + split; [intros _; by exists o | done].
  - split; [done | intros (? & ? & _); done].
Qed.

(** What the sweep leaves under each id. *)
Lemma cleanupExpiredInvoices_lookup (now : Z) (m : gmap string Invoice)
    (id : string) :
  cleanupExpiredInvoices now m !! id =
  match m !! id with
  | Some inv => if expired now inv then None else Some inv
  | None => None
  end.
Proof.
  unfold cleanupExpiredInvoices.
  assert (∀ acc : gmap string Invoice,
    map_fold (λ id invoice acc,
                if expired now invoice then delete id acc else acc) acc m !! id =
    match m !! id with
    | Some inv => if expired now inv then None else acc !! id
    | None => acc !! id
    end) as Hfold.
  { intros acc.
    apply (map_fold_weak_ind (λ r (m' : gmap string Invoice),
      r !! id = match m' !! id with
                | Some inv => if expired now inv then None else acc !! id
                | None => acc !! id
                end)).
    - by rewrite lookup_empty.
    - intros i x m' r Hi IH. destruct (decide (i = id)) as [->|Hne].
      + rewrite lookup_insert_eq. rewrite Hi in IH.
        destruct (expired now x); [by rewrite lookup_delete_eq | done].
      + rewrite lookup_insert_ne by done.
        destruct (expired now x); [by rewrite lookup_delete_ne | done]. }
  rewrite Hfold. by destruct (m !! id) as [inv|].
Qed.

Lemma cleanupExpiredInvoices_idem (now : Z) (m : gmap string Invoice) :
  cleanupExpiredInvoices now (cleanupExpiredInvoices now m) =
  cleanupExpiredInvoices now m.
Proof.
  apply map_eq. intros id. rewrite !cleanupExpiredInvoices_lookup.
  destruct (m !! id) as [inv|]; [|done].
  destruct (expired now inv) eqn:Hexp; [done | by rewrite Hexp].
Qed.

(** C8. The expiry sweep at time [now] keeps exactly the invoices whose age
    [now - timestamp] does not exceed the TTL of 600000 ms (ten minutes) and
    removes the others, leaves the transaction log, the offers, the
    connections and the send log as they were, and running it again at the
    same instant changes nothing. *)
Theorem cleanup_exact_and_idempotent (now : Z) (st : Hub) :
  expiryTime = 600000
  ∧ (∀ id inv,
       activeInvoices (cleanup now st) !! id = Some inv ↔
       activeInvoices st !! id = Some inv ∧ ¬ (now - timestamp inv > 600000))
  ∧ (∀ id inv,
       activeInvoices st !! id = Some inv → now - timestamp inv > 600000 →
       activeInvoices (cleanup now st) !! id = None)
  ∧ transactions (cleanup now st) = transactions st
  ∧ activeOffers (cleanup now st) = activeOffers st
  ∧ clients (cleanup now st) = clients st
  ∧ sent (cleanup now st) = sent st
  ∧ cleanup now (cleanup now st) = cleanup now st.
Proof.
  split_and!; try done.
  - intros id inv. simpl. rewrite cleanupExpiredInvoices_lookup.
    destruct (activeInvoices st !! id) as [inv'|] eqn:Hid.
    + unfold expired, expiryTime. case_bool_decide as Hage.
      * split; [done | intros [[= ->] Hnot]; done].
      * split; [intros [= ->]; done | intros [[= ->] _]; done].
    + split; [done | intros [? _]; done].
  - intros id inv Hid Hage. simpl. rewrite cleanupExpiredInvoices_lookup, Hid.
    unfold expired, expiryTime. by rewrite bool_decide_eq_true_2.
  - unfold cleanup, set_activeInvoices. simpl.
    by rewrite cleanupExpiredInvoices_idem.
Qed.

(** ** Settlement *)

Section Settlement.

Context `{JsRuntime}.

(** A frame other than CHAT from a sender that is not a spectator goes to its
    handler as it is. *)
Lemma onMessage_dispatch (now : Z) (m : AnyMsg) (ws : WebSocket) (st : Hub) :
  ¬ sender_is_spectator ws st → is_chat m = false →
  onMessage now (Some m) ws st = handleMessage now m ws st.
Proof.
  unfold sender_is_spectator. intros Hrole Hm. unfold onMessage.
  rewrite bool_decide_eq_false_2 by done. simpl. by destruct m.
Qed.

Lemma handlePayment_valid (now : Z) (p : PayMsg) (ws : WebSocket) (st : Hub)
    (inv : Invoice) :
  activeInvoices st !! pay_id p = Some inv →
  pay_from p = buyer inv →
  pay_tx p ≠ "" →
  transactions (handlePayment now p ws st)
    = transactions st ++ [settlement now p inv]
  ∧ activeInvoices (handlePayment now p ws st)
    = delete (pay_id p) (activeInvoices st)
  ∧ activeOffers (handlePayment now p ws st)
    = delete (pay_id p) (activeOffers st).
Proof.
  intros Hinv Hfrom Htx. unfold handlePayment, getInvoice. rewrite Hinv.
  assert (validatePayment p (Some inv) = true) as ->.
  { apply validatePayment_true. by exists inv. }
  simpl. unfold completeInvoice. by rewrite Hinv.
Qed.

Lemma handlePayment_invalid (now : Z) (p : PayMsg) (ws : WebSocket) (st : Hub) :
  validatePayment p (activeInvoices st !! pay_id p) = false →
  handlePayment now p ws st = st.
Proof. intros Hv. unfold handlePayment, getInvoice. by rewrite Hv. Qed.

(** C2. A PAY frame [p] that is valid in the current state (an invoice is
    stored under [p.id], [p.from] is its buyer, [p.tx] is not empty) appends
    exactly one record to the transaction log, with from = buyer, to = seller,
    amount = price, txHash = [p.tx] and status completed, and deletes the
    invoice and the offer stored under that id; the same PAY processed again,
    at any time and from any socket, is rejected and leaves the whole state,
    the log included, as it is.  The router hands the frame to the payment
    handler as it is when the sender is not a spectator. *)
Theorem pay_settles_once (now now' : Z) (p : PayMsg) (ws ws' : WebSocket)
    (st : Hub) (inv : Invoice) :
  activeInvoices st !! pay_id p = Some inv →
  pay_from p = buyer inv →
  pay_tx p ≠ "" →
  let st' := handlePayment now p ws st in
  transactions st' =
    transactions st ++
      [{| tx_id := pay_id p; tx_timestamp := now; tx_from := buyer inv;
          tx_to := seller inv; tx_amount := invoice_price inv;
          txHash := pay_tx p; tx_status := completed |}]
  ∧ activeInvoices st' !! pay_id p = None
  ∧ activeOffers st' !! pay_id p = None
  ∧ (∀ id, id ≠ pay_id p →
       activeInvoices st' !! id = activeInvoices st !! id
       ∧ activeOffers st' !! id = activeOffers st !! id)
  ∧ validatePayment p (getInvoice (pay_id p) (activeInvoices st')) = false
  ∧ handlePayment now' p ws' st' = st'
  ∧ (¬ sender_is_spectator ws st →
     onMessage now (Some (PAY p)) ws st = st').
Proof.
  intros Hinv Hfrom Htx st'.
  destruct (handlePayment_valid now p ws st inv Hinv Hfrom Htx)
    as (Htxs & Hinvs & Hoffers).
  subst st'. rewrite Htxs, Hinvs, Hoffers. split_and!.
  - done.
  - apply lookup_delete_eq.
  - apply lookup_delete_eq.
  - intros id Hid. by rewrite !lookup_delete_ne.
  - unfold getInvoice. by rewrite lookup_delete_eq.
  - apply handlePayment_invalid. by rewrite Hinvs, lookup_delete_eq.
  - intros Hrole. by rewrite onMessage_dispatch.
Qed.

(** C3. A PAY frame that is invalid (no invoice under [p.id], or [p.from] is
    not the invoice's buyer, or [p.tx] is empty) is rejected by the payment
    handler: the state after it is the state before it, so no record is
    appended, the offers, the invoices and the transaction log are unchanged
    and nothing is sent to anyone.  The same holds for the frame arriving
    through the router from a sender that is not a spectator. *)
Theorem invalid_pay_rejected (now : Z) (p : PayMsg) (ws : WebSocket) (st : Hub) :
  (activeInvoices st !! pay_id p = None
   ∨ (∃ inv, activeInvoices st !! pay_id p = Some inv ∧ pay_from p ≠ buyer inv)
   ∨ pay_tx p = "") →
  validatePayment p (getInvoice (pay_id p) (activeInvoices st)) = false
  ∧ handlePayment now p ws st = st
  ∧ (¬ sender_is_spectator ws st →
     onMessage now (Some (PAY p)) ws st = st).
Proof.
  intros Hbad.
  assert (validatePayment p (activeInvoices st !! pay_id p) = false) as Hv.
  { destruct (validatePayment p (activeInvoices st !! pay_id p)) eqn:Hv; [|done].
    apply validatePayment_true in Hv as (inv & Hinv & Hfrom & Htx).
    destruct Hbad as [Hnone | [(inv' & Hinv' & Hne) | Hempty]].
    - by rewrite Hnone in Hinv.
    - rewrite Hinv' in Hinv. by injection Hinv as ->.
    - done. }
  split_and!.
  - done.
  - by apply handlePayment_invalid.
  - intros Hrole. rewrite onMessage_dispatch by done. simpl.
    by apply handlePayment_invalid.
Qed.

(** ** The router's capability check *)

(** C6. An inbound frame of a kind other than CHAT from a connection whose
    type is spectator gets exactly one reply, the capability-denied notice sent
    to that socket, and is dropped before dispatch: the connection table, the
    open sockets, the offers, the invoices and the transaction log are
    unchanged. *)
Theorem spectator_frame_denied (now : Z) (m : AnyMsg) (ws : WebSocket)
    (st : Hub) (c : Client) :
  clients_get ws (clients st) = Some c →
  connectionType c = spectator →
  kind m ≠ K_CHAT →
  let st' := onMessage now (Some m) ws st in
  sent st' =
    sent st ++ [{| rcpt := ws; rcpt_type := spectator;
                   body := Frame (CHAT
                     {| chat_text := "As a spectator, you can only send chat messages.";
                        chat_from := "system" |}) |}]
  ∧ clients st' = clients st
  ∧ wsOpen st' = wsOpen st
  ∧ activeOffers st' = activeOffers st
  ∧ activeInvoices st' = activeInvoices st
  ∧ transactions st' = transactions st.
Proof.
  intros Hc Htype Hkind st'. subst st'. unfold onMessage.
  rewrite Hc. simpl. rewrite Htype.
  rewrite bool_decide_eq_true_2 by done.
  assert (is_chat m = false) as -> by (by destruct m).
  done.
Qed.

(** ** Reset *)

(** C10. [/api/reset], in whatever state it is called, empties the
    transaction log and the offer table and sends the reset notice to exactly
    the connections whose socket is open, but leaves the invoice table (and
    the connection table) as it is: every invoice that existed before the
    reset exists after it.  So a PAY that was valid for an invoice before the
    reset still settles after it, appending its record to the emptied log and
    deleting the invoice, although the offer is gone. *)
Theorem reset_keeps_invoices (st : Hub) :
  transactions (apiReset st) = []
  ∧ activeOffers (apiReset st) = ∅
  ∧ activeInvoices (apiReset st) = activeInvoices st
  ∧ clients (apiReset st) = clients st
  ∧ wsOpen (apiReset st) = wsOpen st
  ∧ sent (apiReset st) = sent st ++ reset_to st
  ∧ (∀ d, d ∈ reset_to st ↔
       ∃ w c, (w, c) ∈ clients st ∧ w ∈ wsOpen st
              ∧ d = {| rcpt := w; rcpt_type := connectionType c;
                       body := Frame resetMsg |})
  ∧ (∀ (now : Z) (p : PayMsg) (ws : WebSocket) (inv : Invoice),
       activeInvoices st !! pay_id p = Some inv →
       pay_from p = buyer inv →
       pay_tx p ≠ "" →
       activeInvoices (apiReset st) !! pay_id p = Some inv
       ∧ activeOffers (apiReset st) !! pay_id p = None
       ∧ transactions (handlePayment now p ws (apiReset st))
         = [settlement now p inv]
       ∧ activeInvoices (handlePayment now p ws (apiReset st)) !! pay_id p
         = None).
Proof.
  split_and!; try done.
  - intros d. unfold reset_to. rewrite list_elem_of_In, in_flat_map. split.
    + intros ([w c] & Hin & Hd). apply list_elem_of_In in Hin.
      unfold is_open in Hd. case_bool_decide as Hopen; [|done].
      destruct Hd as [<-|[]]. by exists w, c.
    + intros (w & c & Hin & Hopen & ->).
      exists (w, c). split; [by apply list_elem_of_In|].
      unfold is_open. rewrite bool_decide_eq_true_2 by done. by left.
  - intros now p ws inv Hinv Hfrom Htx.
    destruct (handlePayment_valid now p ws (apiReset st) inv Hinv Hfrom Htx)
      as (Htxs & Hinvs & _).
    split_and!; try done.
    rewrite Hinvs. apply lookup_delete_eq.
Qed.

End Settlement.

(** ** Offers and accepts *)

Section Negotiation.

Context `{JsRuntime}.

(** [sendToAddress] only sends. *)
Lemma sendToAddress_state (addr : string) (m : AnyMsg) (st : Hub) :
  let st' := (sendToAddress addr m st).2 in
  clients st' = clients st
  ∧ wsOpen st' = wsOpen st
  ∧ activeOffers st' = activeOffers st
  ∧ activeInvoices st' = activeInvoices st
  ∧ transactions st' = transactions st.
Proof.
  unfold sendToAddress.
  by destruct (sendToAddress_find addr st (clients st)).
Qed.

Lemma handleOffer_invalid (o : OfferMsg) (ws : WebSocket) (st : Hub) :
  validateOffer o = false → handleOffer o ws st = st.
Proof. intros Hv. unfold handleOffer. by rewrite Hv. Qed.

Lemma handleOffer_valid (o : OfferMsg) (ws : WebSocket) (st : Hub) :
  validateOffer o = true →
  activeOffers (handleOffer o ws st) = <[offer_id o := o]> (activeOffers st)
  ∧ activeInvoices (handleOffer o ws st) = activeInvoices st
  ∧ transactions (handleOffer o ws st) = transactions st
  ∧ clients (handleOffer o ws st)
    = clients_update ws (bind_address (offer_from o)) (clients st).
Proof. intros Hv. unfold handleOffer. by rewrite Hv. Qed.

Lemma handleAccept_invalid (now : Z) (a : AcceptMsg) (ws : WebSocket)
    (st : Hub) :
  validateAccept a (activeOffers st !! accept_id a) = false →
  handleAccept now a ws st = st.
Proof. intros Hv. unfold handleAccept. by rewrite Hv. Qed.

Lemma handleAccept_valid (now : Z) (a : AcceptMsg) (ws : WebSocket) (st : Hub)
    (o : OfferMsg) :
  activeOffers st !! accept_id a = Some o →
  accept_from a ≠ offer_from o →
  activeInvoices (handleAccept now a ws st)
    = <[offer_id o := invoice_for now o (accept_from a)]> (activeInvoices st)
  ∧ activeOffers (handleAccept now a ws st) = activeOffers st
  ∧ transactions (handleAccept now a ws st) = transactions st
  ∧ clients (handleAccept now a ws st)
    = clients_update ws (bind_address (accept_from a)) (clients st).
Proof.
  intros Ho Hne. unfold handleAccept. rewrite Ho.
  assert (validateAccept a (Some o) = true) as ->.
  { apply validateAccept_true. by exists o. }
  simpl. rewrite bool_decide_eq_false_2 by done.
  match goal with
  | |- context [sendToAddress ?b ?m (sendToAddress ?b' ?m' ?s).2] =>
      destruct (sendToAddress_state b m (sendToAddress b' m' s).2)
        as (-> & _ & -> & -> & ->);
      destruct (sendToAddress_state b' m' s) as (-> & _ & -> & -> & ->)
  end.
  done.
Qed.

(** C1 (as the code has it). An ACCEPT is valid exactly when an offer is
    stored under its id and the acceptor is not the party that made the offer;
    an ACCEPT that is not valid changes nothing.  A valid ACCEPT stores the
    invoice (buyer = offer.from, seller = accept.from) under the offer's id
    and leaves the offer in the open-offer table, so a later ACCEPT for the
    same id from another party than the offeror is valid again and its invoice
    takes the place of the first. *)
Theorem accept_invoices_offer_stays (now now2 : Z) (a a2 : AcceptMsg)
    (ws ws2 : WebSocket) (st : Hub) (o : OfferMsg) :
  activeOffers st !! accept_id a = Some o →
  accept_from a ≠ offer_from o →
  accept_id a2 = accept_id a →
  accept_from a2 ≠ offer_from o →
  let st1 := handleAccept now a ws st in
  let st2 := handleAccept now2 a2 ws2 st1 in
  (∀ (a' : AcceptMsg) (st0 : Hub),
     validateAccept a' (activeOffers st0 !! accept_id a') = true ↔
     ∃ o', activeOffers st0 !! accept_id a' = Some o'
           ∧ accept_from a' ≠ offer_from o')
  ∧ (∀ (a' : AcceptMsg) (ws' : WebSocket) (now' : Z) (st0 : Hub),
       validateAccept a' (activeOffers st0 !! accept_id a') = false →
       handleAccept now' a' ws' st0 = st0)
  ∧ activeInvoices st1
    = <[offer_id o := invoice_for now o (accept_from a)]> (activeInvoices st)
  ∧ activeOffers st1 = activeOffers st
  ∧ validateAccept a2 (activeOffers st1 !! accept_id a2) = true
  ∧ activeInvoices st2 !! offer_id o
    = Some (invoice_for now2 o (accept_from a2))
  ∧ activeOffers st2 = activeOffers st.
Proof.
  intros Ho Hne Hid Hne2 st1 st2.
  destruct (handleAccept_valid now a ws st o Ho Hne) as (Hinv1 & Hoff1 & _ & _).
  assert (activeOffers st1 !! accept_id a2 = Some o) as Ho2.
  { subst st1. by rewrite Hoff1, Hid. }
  destruct (handleAccept_valid now2 a2 ws2 st1 o Ho2 Hne2)
    as (Hinv2 & Hoff2 & _ & _).
  split_and!.
  - intros a' st0. apply validateAccept_true.
  - intros a' ws' now' st0. apply handleAccept_invalid.
  - done.
  - done.
  - rewrite Ho2. apply validateAccept_true. by exists o.
  - subst st2. rewrite Hinv2. apply lookup_insert_eq.
  - subst st2. by rewrite Hoff2.
Qed.

End Negotiation.

(** ** The event loop and the ledger *)

Section Ledger.

Context `{JsRuntime}.

Lemma set_clients_id (st : Hub) : set_clients (λ l, l) st = st.
Proof. by destruct st. Qed.

(** How the ['message'] listener ends: a frame that does not parse is
    dropped, a spectator's frame that is not a CHAT is answered with the
    notice, any other frame reaches [handleMessage], after the listener's own
    update of the sender's entry. *)
Lemma onMessage_cases (now : Z) (data : option AnyMsg) (ws : WebSocket)
    (st : Hub) :
  (data = None ∧ onMessage now data ws st = st)
  ∨ (∃ m, data = Some m ∧ sender_is_spectator ws st ∧ is_chat m = false
          ∧ onMessage now data ws st
            = send [{| rcpt := ws; rcpt_type := spectator;
                       body := Frame capabilityDenied |}] st)
  ∨ (∃ m f, data = Some m
            ∧ onMessage now data ws st
              = handleMessage now m ws (set_clients f st)).
Proof.
  destruct data as [m|]; [|by left]. right. unfold onMessage.
  destruct (decide (sender_is_spectator ws st)) as [Hs|Hs].
  - destruct (is_chat m) eqn:Hm.
    + right. unfold sender_is_spectator in Hs.
      rewrite bool_decide_eq_true_2 by done. simpl.
      destruct m; try done. case_bool_decide; [by eexists _, _|].
      exists (CHAT c), (λ l, l). by rewrite set_clients_id.
    + left. exists m. unfold sender_is_spectator in Hs.
      by rewrite bool_decide_eq_true_2.
  - right. unfold sender_is_spectator in Hs.
    rewrite bool_decide_eq_false_2 by done. simpl.
    destruct m; try (eexists _, (λ l, l); by rewrite set_clients_id).
    case_bool_decide; [by eexists _, _|].
    exists (CHAT c), (λ l, l). by rewrite set_clients_id.
Qed.

(** An offer leaves the table, or changes, only through an OFFER or a PAY
    with its id or through a reset. *)
Lemma step_offers (e : Event) (st : Hub) (id : string) :
  activeOffers (step e st) !! id = activeOffers st !! id
  ∨ e = ApiReset
  ∨ (∃ ws now o, e = Message ws now (Some (OFFER o)) ∧ offer_id o = id)
  ∨ (∃ ws now p, e = Message ws now (Some (PAY p)) ∧ pay_id p = id).
Proof.
  destruct e as [ws i qt qn|ws now data|ws|ws|ws|ws| |now| ];
    try (by left); [|by right; left].
  simpl.
  destruct (onMessage_cases now data ws st)
    as [[-> ->]|[(m & -> & _ & _ & ->)|(m & f & -> & ->)]];
    [by left | by left |].
  destruct m as [o|a|p|c|i|t]; simpl; [| | | |by left|by left].
  - destruct (decide (offer_id o = id)) as [Hid|Hid];
      [right; right; left; by eexists _, _, _|].
    left. destruct (validateOffer o) eqn:Hv.
    + destruct (handleOffer_valid o ws (set_clients f st) Hv) as (-> & _).
      simpl. by rewrite lookup_insert_ne.
    + by rewrite handleOffer_invalid.
  - left.
    destruct (validateAccept a (activeOffers (set_clients f st) !! accept_id a))
      eqn:Hv.
    + apply validateAccept_true in Hv as (o & Ho & Hne).
      by destruct (handleAccept_valid now a ws _ o Ho Hne) as (_ & -> & _).
    + by rewrite handleAccept_invalid.
  - destruct (decide (pay_id p = id)) as [Hid|Hid];
      [right; right; right; by eexists _, _, _|].
    left.
    destruct (validatePayment p (activeInvoices (set_clients f st) !! pay_id p))
      eqn:Hv.
    + apply validatePayment_true in Hv as (inv & Hinv & Hfrom & Htx).
      destruct (handlePayment_valid now p ws _ inv Hinv Hfrom Htx)
        as (_ & _ & ->).
      simpl. by rewrite lookup_delete_ne.
    + by rewrite handlePayment_invalid.
  - left. by repeat case_bool_decide.
Qed.

(** An invoice in the store after an event was there before it or has just
    been created for an ACCEPT from another party than the offeror. *)
Lemma step_invoices (e : Event) (st : Hub) (id : string) (inv : Invoice) :
  activeInvoices (step e st) !! id = Some inv →
  activeInvoices st !! id = Some inv
  ∨ (∃ now a o, inv = invoice_for now o (accept_from a)
                ∧ accept_from a ≠ offer_from o).
Proof.
  destruct e as [ws i qt qn|ws now data|ws|ws|ws|ws| |now| ];
    try (by left).
  - simpl.
    destruct (onMessage_cases now data ws st)
      as [[-> ->]|[(m & -> & _ & _ & ->)|(m & f & -> & ->)]];
      [by left | by left |].
    destruct m as [o|a|p|c|i|t]; simpl; [| | | |by left|by left].
    + destruct (validateOffer o) eqn:Hv.
      * destruct (handleOffer_valid o ws (set_clients f st) Hv) as (_ & -> & _).
        by left.
      * rewrite handleOffer_invalid by done. by left.
    + destruct (validateAccept a (activeOffers (set_clients f st) !! accept_id a))
        eqn:Hv.
      * apply validateAccept_true in Hv as (o & Ho & Hne).
        destruct (handleAccept_valid now a ws _ o Ho Hne) as (-> & _).
        simpl. destruct (decide (offer_id o = id)) as [<-|Hid].
        -- rewrite lookup_insert_eq. intros [= <-]. right. by eexists _, _, _.
        -- rewrite lookup_insert_ne by done. by left.
      * rewrite handleAccept_invalid by done. by left.
    + destruct (validatePayment p (activeInvoices (set_clients f st) !! pay_id p))
        eqn:Hv.
      * apply validatePayment_true in Hv as (inv' & Hinv & Hfrom & Htx).
        destruct (handlePayment_valid now p ws _ inv' Hinv Hfrom Htx)
          as (_ & -> & _).
        simpl. intros Hl. left.
        apply lookup_delete_Some in Hl. by destruct Hl.
      * rewrite handlePayment_invalid by done. by left.
    + intros Hl. left. by repeat case_bool_decide.
  - simpl. rewrite cleanupExpiredInvoices_lookup. intros Hl. left.
    destruct (activeInvoices st !! id) as [inv'|]; [|done].
    by destruct (expired now inv').
Qed.

Lemma step_invoices_distinct (e : Event) (st : Hub) :
  invoices_distinct st → invoices_distinct (step e st).
Proof.
  intros Hst id inv Hinv.
  destruct (step_invoices e st id inv Hinv) as [Hold|(now & a & o & -> & Hne)].
  - by apply (Hst id).
  - simpl. congruence.
Qed.

Lemma reachable_invoices_distinct (st : Hub) :
  reachable st → invoices_distinct st.
Proof.
  induction 1 as [|e st _ IH].
  - intros id inv Hinv. simpl in Hinv. by rewrite lookup_empty in Hinv.
  - by apply step_invoices_distinct.
Qed.

Lemma reachable_run (es : list Event) (st : Hub) :
  reachable st → reachable (run es st).
Proof.
  revert st. induction es as [|e es IH]; intros st Hst; [done|].
  simpl. apply IH. by constructor.
Qed.

(** C4 (as the code has it). The open-offer table holds one entry per id.  A
    valid OFFER [o] is stored under [o.id] whatever was there, so an OFFER that
    reuses an open id replaces the offer stored under it; the other ids keep
    their offers and an invalid OFFER changes nothing.  The entry under an id
    stays as it is through every event other than an OFFER or a PAY carrying
    that id and a reset. *)
Theorem offer_stored_last_write_wins (o o2 : OfferMsg) (ws ws2 : WebSocket)
    (st : Hub) :
  validateOffer o = true →
  validateOffer o2 = true →
  offer_id o2 = offer_id o →
  let st' := handleOffer o ws st in
  activeOffers st' = <[offer_id o := o]> (activeOffers st)
  ∧ activeOffers st' !! offer_id o = Some o
  ∧ (∀ id, id ≠ offer_id o → activeOffers st' !! id = activeOffers st !! id)
  ∧ activeOffers (handleOffer o2 ws2 st') !! offer_id o = Some o2
  ∧ (∀ (o' : OfferMsg) (ws' : WebSocket) (st0 : Hub),
       validateOffer o' = false → handleOffer o' ws' st0 = st0)
  ∧ (∀ (e : Event) (st0 : Hub) (id : string),
       activeOffers (step e st0) !! id = activeOffers st0 !! id
       ∨ e = ApiReset
       ∨ (∃ w now o', e = Message w now (Some (OFFER o')) ∧ offer_id o' = id)
       ∨ (∃ w now p, e = Message w now (Some (PAY p)) ∧ pay_id p = id)).
Proof.
  intros Hv Hv2 Hid st'.
  destruct (handleOffer_valid o ws st Hv) as (Hoffers & _).
  destruct (handleOffer_valid o2 ws2 st' Hv2) as (Hoffers2 & _).
  subst st'. split_and!.
  - done.
  - rewrite Hoffers. apply lookup_insert_eq.
  - intros id Hne. rewrite Hoffers. by rewrite lookup_insert_ne.
  - rewrite Hoffers2, Hid. apply lookup_insert_eq.
  - intros o' ws' st0. apply handleOffer_invalid.
  - apply step_offers.
Qed.

(** C5. An ACCEPT whose [from] is the [from] of the open offer is rejected:
    the state, and with it the invoice store, is as before, whoever sends it.
    In every state the server reaches, each invoice in the store has a buyer
    different from its seller. *)
Theorem no_self_trade :
  (∀ (now : Z) (a : AcceptMsg) (ws : WebSocket) (st : Hub) (o : OfferMsg),
     activeOffers st !! accept_id a = Some o →
     accept_from a = offer_from o →
     validateAccept a (Some o) = false
     ∧ handleAccept now a ws st = st
     ∧ activeInvoices (step (Message ws now (Some (ACCEPT a))) st)
       = activeInvoices st)
  ∧ (∀ st : Hub, reachable st →
       ∀ id inv, activeInvoices st !! id = Some inv → buyer inv ≠ seller inv).
Proof.
  split.
  - intros now a ws st o Ho Hself.
    assert (validateAccept a (Some o) = false) as Hv.
    { unfold validateAccept. by rewrite bool_decide_eq_true_2. }
    split_and!; [done | apply handleAccept_invalid; by rewrite Ho |].
    change (step (Message ws now (Some (ACCEPT a))) st)
      with (onMessage now (Some (ACCEPT a)) ws st).
    destruct (onMessage_cases now (Some (ACCEPT a)) ws st)
      as [[? _]|[(m & _ & _ & _ & ->)|(m & f & [= <-] & ->)]];
      [done | done |].
    unfold handleMessage. rewrite handleAccept_invalid; [done|].
    simpl. by rewrite Ho.
  - intros st Hst. by apply reachable_invoices_distinct.
Qed.

End Ledger.

(** ** Broadcast fanout *)

Section Fanout.

Context `{JsRuntime}.

Lemma roles_elem (l : list (WebSocket * Client)) (w : WebSocket) (c : Client) :
  (w, c) ∈ l → (w, connectionType c) ∈ roles l.
Proof.
  intros Hin. unfold roles.
  apply (list_elem_of_fmap_2 (λ e : WebSocket * Client,
                                (e.1, connectionType e.2)) l (w, c) Hin).
Qed.

Lemma roles_update (ws : WebSocket) (f : Client → Client)
    (l : list (WebSocket * Client)) :
  (∀ c, connectionType (f c) = connectionType c) →
  roles (clients_update ws f l) = roles l.
Proof.
  intros Hf. unfold roles. induction l as [|[w c] l IH]; [done|].
  simpl. case_decide; csimpl; [by rewrite Hf | by rewrite IH].
Qed.

Lemma roles_update_first (p : Client → bool) (f : Client → Client)
    (l : list (WebSocket * Client)) :
  (∀ c, connectionType (f c) = connectionType c) →
  roles (clients_update_first p f l) = roles l.
Proof.
  intros Hf. unfold roles. induction l as [|[w c] l IH]; [done|].
  simpl. destruct (p c); csimpl; [by rewrite Hf | by rewrite IH].
Qed.

Lemma bind_address_type (a : string) (c : Client) :
  connectionType (bind_address a c) = connectionType c.
Proof. unfold bind_address. by destruct (truthy_opt (address c)). Qed.

Lemma bind_payer_type (a : string) (c : Client) :
  connectionType (bind_payer a c) = connectionType c.
Proof.
  unfold bind_payer. destruct (truthy_opt (address c)); [done|].
  by destruct (truthy_opt (name (set_address a c))).
Qed.

Lemma name_if_missing_type (a : string) (c : Client) :
  connectionType (name_if_missing a c) = connectionType c.
Proof. unfold name_if_missing. by destruct (truthy_opt (name c)). Qed.

Lemma adopt_intro_type (text : string) (c : Client) :
  connectionType (adopt_intro text c) = connectionType c.
Proof.
  unfold adopt_intro. destruct (matchIntro text) as [n|]; [|done].
  by destruct (truthy n && negb (truthy_opt (name c))).
Qed.

Lemma delivery_ok_roles (l l' : list (WebSocket * Client)) (d : Delivery) :
  roles l = roles l' → delivery_ok l d → delivery_ok l' d.
Proof. unfold delivery_ok. by intros <-. Qed.

Lemma emits_refl (st : Hub) : emits st st.
Proof. split; [done|]. exists []. by rewrite app_nil_r. Qed.

Lemma emits_trans (st1 st2 st3 : Hub) :
  emits st1 st2 → emits st2 st3 → emits st1 st3.
Proof.
  intros (Hr1 & ds1 & Hs1 & Hok1) (Hr2 & ds2 & Hs2 & Hok2). split.
  - by rewrite Hr2.
  - exists (ds1 ++ ds2). split; [by rewrite Hs2, Hs1, app_assoc|].
    apply Forall_app. split; [done|].
    eapply Forall_impl; [exact Hok2|]. intros d. by apply delivery_ok_roles.
Qed.

Lemma emits_quiet (st st' : Hub) :
  roles (clients st') = roles (clients st) → sent st' = sent st → emits st st'.
Proof. intros Hr Hs. split; [done|]. exists []. by rewrite app_nil_r. Qed.

Lemma emits_send (ds : list Delivery) (st : Hub) :
  Forall (delivery_ok (clients st)) ds → emits st (send ds st).
Proof. intros Hok. split; [done|]. by exists ds. Qed.

Lemma broadcast_to_ok (message : Payload) (sender : option WebSocket)
    (st : Hub) :
  Forall (delivery_ok (clients st)) (broadcast_to message sender st).
Proof.
  apply Forall_forall. intros d Hd. unfold broadcast_to in Hd.
  apply list_elem_of_In, in_flat_map in Hd as ([w c] & Hin & Hd).
  apply list_elem_of_In, roles_elem in Hin.
  destruct (negb (is_sender sender w) && is_open st w); [|done].
  destruct (connectionType c) eqn:Htype.
  - destruct Hd as [<-|[]]. split; [by intros ?|]. exact Hin.
  - destruct message as [m|s]; [|done].
    destruct (spectator_kind m) eqn:Hkind; [|done].
    destruct Hd as [<-|[]]. split; [|exact Hin].
    intros _. by exists m.
Qed.

Lemma broadcastToAgents_to_ok (message : Payload) (sender : option WebSocket)
    (st : Hub) :
  Forall (delivery_ok (clients st)) (broadcastToAgents_to message sender st).
Proof.
  apply Forall_forall. intros d Hd. unfold broadcastToAgents_to in Hd.
  apply list_elem_of_In, in_flat_map in Hd as ([w c] & Hin & Hd).
  apply list_elem_of_In, roles_elem in Hin.
  destruct (negb (is_sender sender w) && is_open st w); [|done].
  simpl in Hd. case_bool_decide as Htype; [|done].
  destruct Hd as [<-|[]]. split; [by intros ?|]. simpl. by rewrite <-Htype.
Qed.

Lemma sendToAddress_find_Some (addr : string) (st : Hub)
    (l : list (WebSocket * Client)) (ws : WebSocket) :
  sendToAddress_find addr st l = Some ws → (ws, agent) ∈ roles l.
Proof.
  induction l as [|[w c] l IH]; [done|]. simpl. intros Hfind.
  change (roles ((w, c) :: l)) with ((w, connectionType c) :: roles l).
  apply elem_of_cons.
  destruct (has_address addr c && is_open st w); [|right; by apply IH].
  destruct (connectionType c) eqn:Htype; [|right; by apply IH].
  left. by injection Hfind as <-.
Qed.

Lemma emits_broadcast (message : Payload) (sender : option WebSocket)
    (st st' : Hub) :
  emits st st' → emits st (broadcast message sender st').
Proof.
  intros Hst. eapply emits_trans; [exact Hst|].
  apply emits_send, broadcast_to_ok.
Qed.

Lemma emits_broadcastToAgents (message : Payload) (sender : option WebSocket)
    (st st' : Hub) :
  emits st st' → emits st (broadcastToAgents message sender st').
Proof.
  intros Hst. eapply emits_trans; [exact Hst|].
  apply emits_send, broadcastToAgents_to_ok.
Qed.

Lemma emits_sendToAddress (addr : string) (message : AnyMsg) (st st' : Hub) :
  emits st st' → emits st (sendToAddress addr message st').2.
Proof.
  intros Hst. eapply emits_trans; [exact Hst|]. unfold sendToAddress.
  destruct (sendToAddress_find addr st' (clients st')) as [ws|] eqn:Hfind;
    [|apply emits_refl].
  apply emits_send, Forall_singleton. split; [by intros ?|].
  by apply (sendToAddress_find_Some addr st').
Qed.

Lemma emits_set_clients (f : list (WebSocket * Client) → list (WebSocket * Client))
    (st st' : Hub) :
  roles (f (clients st')) = roles (clients st') →
  emits st st' → emits st (set_clients f st').
Proof.
  intros Hf Hst. eapply emits_trans; [exact Hst|]. by apply emits_quiet.
Qed.

Lemma emits_set_activeOffers (f : gmap string OfferMsg → gmap string OfferMsg)
    (st st' : Hub) :
  emits st st' → emits st (set_activeOffers f st').
Proof. intros Hst. eapply emits_trans; [exact Hst|]. by apply emits_quiet. Qed.

Lemma emits_set_activeInvoices (f : gmap string Invoice → gmap string Invoice)
    (st st' : Hub) :
  emits st st' → emits st (set_activeInvoices f st').
Proof. intros Hst. eapply emits_trans; [exact Hst|]. by apply emits_quiet. Qed.

Lemma emits_set_transactions
    (f : list TransactionRecord → list TransactionRecord) (st st' : Hub) :
  emits st st' → emits st (set_transactions f st').
Proof. intros Hst. eapply emits_trans; [exact Hst|]. by apply emits_quiet. Qed.

Lemma clients_get_elem (ws : WebSocket) (l : list (WebSocket * Client))
    (c : Client) :
  clients_get ws l = Some c → (ws, c) ∈ l.
Proof.
  induction l as [|[w c'] l IH]; [done|]. simpl.
  case_decide as Hw.
  - intros [= <-]. subst w. apply elem_of_cons. by left.
  - intros Hget. apply elem_of_cons. right. by apply IH.
Qed.

Lemma roles_set (ws : WebSocket) (c : Client) (l : list (WebSocket * Client)) :
  (ws, connectionType c) ∈ roles (clients_set ws c l).
Proof.
  induction l as [|[w c'] l IH]; simpl.
  - apply elem_of_cons. by left.
  - case_decide as Hw.
    + subst w. apply elem_of_cons. by left.
    + change (roles ((w, c') :: clients_set ws c l))
        with ((w, connectionType c') :: roles (clients_set ws c l)).
      apply elem_of_cons. by right.
Qed.

Ltac emits_chain :=
  repeat first
    [ apply emits_broadcast
    | apply emits_broadcastToAgents
    | apply emits_sendToAddress
    | apply emits_set_activeOffers
    | apply emits_set_activeInvoices
    | apply emits_set_transactions
    | apply emits_set_clients;
      [ first [ apply roles_update | apply roles_update_first ]; intros ?;
        cbv beta; rewrite ?adopt_intro_type;
        auto using bind_address_type, bind_payer_type, name_if_missing_type
      | ]
    | apply emits_refl ].

Lemma handleOffer_emits (o : OfferMsg) (ws : WebSocket) (st : Hub) :
  emits st (handleOffer o ws st).
Proof.
  unfold handleOffer. destruct (validateOffer o); cbn [negb]; cbv zeta;
    emits_chain.
Qed.

Lemma handleAccept_emits (now : Z) (a : AcceptMsg) (ws : WebSocket) (st : Hub) :
  emits st (handleAccept now a ws st).
Proof.
  unfold handleAccept.
  destruct (validateAccept a (activeOffers st !! accept_id a)); cbn [negb];
    cbv zeta; [|emits_chain].
  destruct (activeOffers st !! accept_id a) as [o|]; [|emits_chain].
  case_bool_decide; [emits_chain|].
  unfold createInvoice. cbv beta iota zeta. emits_chain.
Qed.

Lemma handlePayment_emits (now : Z) (p : PayMsg) (ws : WebSocket) (st : Hub) :
  emits st (handlePayment now p ws st).
Proof.
  unfold handlePayment.
  destruct (validatePayment p (getInvoice (pay_id p) (activeInvoices st)));
    cbn [negb]; cbv zeta; [|emits_chain].
  destruct (getInvoice (pay_id p) (activeInvoices st)) as [inv|]; emits_chain.
Qed.

Lemma handleChat_emits (c : ChatMsg) (ws : WebSocket) (st : Hub) :
  emits st (handleChat c ws st).
Proof.
  unfold handleChat. cbv zeta. apply emits_broadcast.
  case_bool_decide; emits_chain.
Qed.

Lemma handleMessage_emits (now : Z) (m : AnyMsg) (ws : WebSocket) (st : Hub) :
  emits st (handleMessage now m ws st).
Proof.
  destruct m; simpl;
    auto using handleOffer_emits, handleAccept_emits, handlePayment_emits,
               handleChat_emits, emits_refl.
Qed.

Lemma onMessage_emits (now : Z) (data : option AnyMsg) (ws : WebSocket)
    (st : Hub) :
  emits st (onMessage now data ws st).
Proof.
  unfold onMessage. destruct data as [m|]; [|apply emits_refl].
  destruct (bool_decide (connectionType <$> clients_get ws (clients st)
                         = Some spectator) && negb (is_chat m)) eqn:Hdenied.
  - apply andb_true_iff in Hdenied as [Hrole _].
    apply bool_decide_eq_true in Hrole.
    destruct (clients_get ws (clients st)) as [c|] eqn:Hc; [|done].
    injection Hrole as Hrole.
    apply emits_send, Forall_singleton. split.
    + intros _. by eexists.
    + simpl. rewrite <-Hrole. by apply roles_elem, clients_get_elem.
  - cbv zeta. eapply emits_trans; [|apply handleMessage_emits].
    destruct m as [| | |c| |]; try apply emits_refl.
    destruct (bool_decide (chat_from c ≠ "system")); emits_chain.
Qed.

(** What an event sends: every send suits its receiver's connection type, and
    the receiver is in the connection table after the event with the type
    the sending code took it to have. *)
Lemma step_sends (e : Event) (st : Hub) :
  ∃ ds, sent (step e st) = sent st ++ ds
        ∧ Forall (delivery_ok (clients (step e st))) ds.
Proof.
  destruct e as [ws i qt qn|ws now data|ws|ws|ws|ws| |now| ];
    try (exists []; split; [by rewrite app_nil_r | done]).
  - eexists. split; [done|]. apply Forall_singleton. split.
    + intros _. eexists. split; [done|].
      by destruct (bool_decide (qt = Some "spectator")).
    + simpl.
      match goal with
      | |- _ ∈ roles (clients_set ?w ?c ?l) => exact (roles_set w c l)
      end.
  - destruct (onMessage_emits now data ws st) as (Hroles & ds & Hsent & Hok).
    exists ds. split; [done|].
    eapply Forall_impl; [exact Hok|]. intros d. by apply delivery_ok_roles.
  - eexists. split; [done|]. apply Forall_forall. intros d Hd.
    unfold reset_to in Hd.
    apply list_elem_of_In, in_flat_map in Hd as ([w c] & Hin & Hd).
    destruct (is_open _ w); [|done]. destruct Hd as [<-|[]]. split.
    + intros _. by eexists.
    + simpl in *. by apply roles_elem, list_elem_of_In.
Qed.

Lemma reachable_sent_ok (st : Hub) :
  reachable st → Forall spectator_ok (sent st).
Proof.
  induction 1 as [|e st _ IH]; [done|].
  destruct (step_sends e st) as (ds & -> & Hok). apply Forall_app. split; [done|].
  eapply Forall_impl; [exact Hok|]. by intros d [? _].
Qed.

Lemma spectator_kind_true (m : AnyMsg) :
  spectator_kind m = true →
  (kind m = K_CHAT ∨ kind m = K_OFFER ∨ kind m = K_ACCEPT ∨ kind m = K_PAY)
  ∧ kind m ≠ K_INVOICE.
Proof. destruct m; simpl; intros Hk; try done; split; auto. Qed.

(** C7. In every state the server reaches, each frame that has been sent to a
    connection of type spectator is of kind CHAT, OFFER, ACCEPT or PAY, and so
    never an INVOICE.  The connection type recorded with a send is that of the
    receiver: after the event that sends it, the receiving socket is in the
    connection table with that type. *)
Theorem spectators_never_get_invoice :
  (∀ st : Hub, reachable st →
     ∀ d, d ∈ sent st → rcpt_type d = spectator →
       ∃ m, body d = Frame m
            ∧ (kind m = K_CHAT ∨ kind m = K_OFFER ∨ kind m = K_ACCEPT
               ∨ kind m = K_PAY)
            ∧ kind m ≠ K_INVOICE)
  ∧ (∀ (e : Event) (st : Hub),
       ∃ ds, sent (step e st) = sent st ++ ds
             ∧ ∀ d, d ∈ ds →
                 ∃ c, (rcpt d, c) ∈ clients (step e st)
                      ∧ connectionType c = rcpt_type d).
Proof.
  split.
  - intros st Hst d Hd Hspec.
    apply reachable_sent_ok in Hst.
    rewrite Forall_forall in Hst.
    destruct (Hst d Hd Hspec) as (m & Hbody & Hkind).
    exists m. split; [done|]. by apply spectator_kind_true.
  - intros e st. destruct (step_sends e st) as (ds & Hsent & Hok).
    exists ds. split; [done|]. intros d Hd.
    rewrite Forall_forall in Hok. destruct (Hok d Hd) as [_ Hrole].
    unfold roles in Hrole.
    apply list_elem_of_fmap in Hrole as ([w c] & [= Hw Ht] & Hin).
    exists c. simpl in *. by subst.
Qed.

End Fanout.

(** ** Address binding *)

Section Binding.

Context `{JsRuntime}.



Lemma handlePayment_clients (now : Z) (p : PayMsg) (ws : WebSocket) (st : Hub) :
  validatePayment p (getInvoice (pay_id p) (activeInvoices st)) = true →
  clients (handlePayment now p ws st)
  = clients_update ws (bind_payer (pay_from p)) (clients st).
Proof.
  intros Hv. unfold handlePayment. rewrite Hv. simpl.
  apply validatePayment_true in Hv as (inv & -> & _). done.
Qed.

(** The connection table after a frame. *)
Lemma onMessage_clients (now : Z) (m : AnyMsg) (ws : WebSocket) (st : Hub) :
  clients (onMessage now (Some m) ws st)
  = if passes m ws st then clients_after m ws (clients st) else clients st.
Proof.
  unfold onMessage, passes.
  destruct (decide (sender_is_spectator ws st)) as [Hs|Hs].
  - rewrite (bool_decide_eq_true_2 (sender_is_spectator ws st)) by done.
    unfold sender_is_spectator in Hs. rewrite bool_decide_eq_true_2 by done.
    destruct m as [o|a|p|c|i|t]; try done. simpl.
    unfold handleChat. by case_bool_decide.
  - rewrite (bool_decide_eq_false_2 (sender_is_spectator ws st)) by done.
    unfold sender_is_spectator in Hs. rewrite bool_decide_eq_false_2 by done.
    destruct m as [o|a|p|c|i|t]; simpl; [| | | |done|done].
    + destruct (validateOffer o) eqn:Hv.
      * by destruct (handleOffer_valid o ws st Hv) as (_ & _ & _ & ->).
      * by rewrite handleOffer_invalid.
    + destruct (validateAccept a (activeOffers st !! accept_id a)) eqn:Hv.
      * apply validateAccept_true in Hv as (o & Ho & Hne).
        by destruct (handleAccept_valid now a ws st o Ho Hne)
          as (_ & _ & _ & ->).
      * by rewrite handleAccept_invalid.
    + destruct (validatePayment p (getInvoice (pay_id p) (activeInvoices st)))
        eqn:Hv.
      * by rewrite handlePayment_clients.
      * by rewrite handlePayment_invalid.
    + unfold handleChat. by case_bool_decide.
Qed.






















End Binding.

(** ** The properties on the sample data *)

Section Samples.

#[local] Existing Instance sample_runtime.

(** The invoice created at 1000 is kept by a sweep at 601000, when its age is
    the TTL exactly, and removed by a sweep one millisecond later. *)
Lemma cleanup_exact_and_idempotent_witness :
  activeInvoices (cleanup 601000 invoiced_o1) !! "o1" = Some invoice_o1
  ∧ activeInvoices (cleanup 601001 invoiced_o1) !! "o1" = None
  ∧ cleanup 601001 (cleanup 601001 invoiced_o1) = cleanup 601001 invoiced_o1.
Proof.
  destruct (cleanup_exact_and_idempotent 601000 invoiced_o1)
    as (_ & Hkeep & _).
  destruct (cleanup_exact_and_idempotent 601001 invoiced_o1)
    as (_ & _ & Hdrop & _ & _ & _ & _ & Hidem).
  split_and!.
  - apply Hkeep. split; [vm_compute; reflexivity | simpl; lia].
  - apply (Hdrop "o1" invoice_o1); [vm_compute; reflexivity | simpl; lia].
  - exact Hidem.
Defined.

Lemma pay_settles_once_witness :
  activeInvoices invoiced_o1 !! pay_id pay_o1 = Some invoice_o1
  ∧ pay_from pay_o1 = buyer invoice_o1
  ∧ pay_tx pay_o1 ≠ ""
  ∧ transactions (handlePayment 3000 pay_o1 1%nat invoiced_o1)
    = [{| tx_id := "o1"; tx_timestamp := 3000; tx_from := "A"; tx_to := "B";
          tx_amount := 0.5%float; txHash := "r1"; tx_status := completed |}]
  ∧ activeInvoices (handlePayment 3000 pay_o1 1%nat invoiced_o1) !! "o1" = None
  ∧ handlePayment 4000 pay_o1 1%nat
      (handlePayment 3000 pay_o1 1%nat invoiced_o1)
    = handlePayment 3000 pay_o1 1%nat invoiced_o1.
Proof.
  assert (activeInvoices invoiced_o1 !! pay_id pay_o1 = Some invoice_o1) as Hinv
    by (vm_compute; reflexivity).
  assert (pay_tx pay_o1 ≠ "") as Htx by done.
  destruct (pay_settles_once 3000 4000 pay_o1 1%nat 1%nat invoiced_o1
              invoice_o1 Hinv eq_refl Htx)
    as (Htxs & Hgone & _ & _ & _ & Hagain & _).
  split_and!; [done | done | done | exact Htxs | exact Hgone | exact Hagain].
Defined.

(** The wrong payer: "B" pays the invoice whose buyer is "A". *)
Lemma invalid_pay_rejected_witness :
  (∃ inv, activeInvoices invoiced_o1 !! "o1" = Some inv ∧ "B" ≠ buyer inv)
  ∧ handlePayment 3000 {| pay_id := "o1"; pay_tx := "r1"; pay_from := "B" |}
      2%nat invoiced_o1 = invoiced_o1.
Proof.
  assert (∃ inv, activeInvoices invoiced_o1 !! "o1" = Some inv ∧ "B" ≠ buyer inv)
    as Hwrong.
  { exists invoice_o1. split; [vm_compute; reflexivity | done]. }
  split; [exact Hwrong|].
  exact (proj1 (proj2 (invalid_pay_rejected 3000
           {| pay_id := "o1"; pay_tx := "r1"; pay_from := "B" |} 2%nat
           invoiced_o1 (or_intror (or_introl Hwrong))))).
Defined.

Lemma spectator_frame_denied_witness :
  clients_get 3%nat (clients three_connected)
    = Some (sample_client "c3" spectator)
  ∧ sent (onMessage 1000 (Some (OFFER offer_o1)) 3%nat three_connected)
    = [{| rcpt := 3%nat; rcpt_type := spectator;
          body := Frame capabilityDenied |}]
  ∧ activeOffers (onMessage 1000 (Some (OFFER offer_o1)) 3%nat three_connected)
    = ∅.
Proof.
  assert (clients_get 3%nat (clients three_connected)
          = Some (sample_client "c3" spectator)) as Hc by reflexivity.
  assert (kind (OFFER offer_o1) ≠ K_CHAT) as Hk by done.
  destruct (spectator_frame_denied 1000 (OFFER offer_o1) 3%nat three_connected
              _ Hc eq_refl Hk) as (Hsent & _ & _ & Hoffers & _).
  split_and!; [exact Hc | exact Hsent | exact Hoffers].
Defined.

Lemma reset_keeps_invoices_witness :
  activeInvoices invoiced_o1 !! pay_id pay_o1 = Some invoice_o1
  ∧ transactions (apiReset invoiced_o1) = []
  ∧ activeOffers (apiReset invoiced_o1) = ∅
  ∧ activeInvoices (apiReset invoiced_o1) !! "o1" = Some invoice_o1
  ∧ transactions (handlePayment 3000 pay_o1 1%nat (apiReset invoiced_o1))
    = [settlement 3000 pay_o1 invoice_o1].
Proof.
  assert (activeInvoices invoiced_o1 !! pay_id pay_o1 = Some invoice_o1) as Hinv
    by (vm_compute; reflexivity).
  assert (pay_tx pay_o1 ≠ "") as Htx by done.
  destruct (reset_keeps_invoices invoiced_o1)
    as (Hlog & Hoffers & _ & _ & _ & _ & _ & Hpay).
  destruct (Hpay 3000 pay_o1 1%nat invoice_o1 Hinv eq_refl Htx)
    as (Hstill & _ & Htxs & _).
  split_and!; [exact Hinv | exact Hlog | exact Hoffers | exact Hstill | exact Htxs].
Defined.

Lemma accept_invoices_offer_stays_witness :
  activeOffers offered_o1 !! accept_id accept_B = Some offer_o1
  ∧ activeOffers (handleAccept 2000 accept_B 2%nat offered_o1)
    = activeOffers offered_o1
  ∧ activeInvoices
      (handleAccept 3000 accept_C 2%nat
         (handleAccept 2000 accept_B 2%nat offered_o1)) !! "o1"
    = Some (invoice_for 3000 offer_o1 "C").
Proof.
  assert (activeOffers offered_o1 !! accept_id accept_B = Some offer_o1) as Ho
    by (vm_compute; reflexivity).
  assert (accept_from accept_B ≠ offer_from offer_o1) as HB by done.
  assert (accept_from accept_C ≠ offer_from offer_o1) as HC by done.
  destruct (accept_invoices_offer_stays 2000 3000 accept_B accept_C 2%nat 2%nat
              offered_o1 offer_o1 Ho HB eq_refl HC)
    as (_ & _ & _ & Hoffers & _ & Hinv & _).
  split_and!; [exact Ho | exact Hoffers | exact Hinv].
Defined.

(** After a first valid ACCEPT the offer is still open, and a second ACCEPT
    for the same id is not rejected: its invoice replaces the first. *)
Lemma second_accept_replaces_invoice :
  let st1 := step (Message 2%nat 2000 (Some (ACCEPT accept_B))) offered_o1 in
  let st2 := step (Message 2%nat 3000 (Some (ACCEPT accept_C))) st1 in
  activeOffers st1 !! "o1" = Some offer_o1
  ∧ activeInvoices st1 !! "o1" = Some (invoice_for 2000 offer_o1 "B")
  ∧ activeInvoices st2 !! "o1" = Some (invoice_for 3000 offer_o1 "C").
Proof. vm_compute. split_and!; reflexivity. Qed.

Lemma offer_stored_last_write_wins_witness :
  validateOffer offer_o1 = true
  ∧ validateOffer offer_o1_again = true
  ∧ offer_id offer_o1_again = offer_id offer_o1
  ∧ activeOffers (handleOffer offer_o1 1%nat three_connected) !! "o1"
    = Some offer_o1
  ∧ activeOffers
      (handleOffer offer_o1_again 2%nat
         (handleOffer offer_o1 1%nat three_connected)) !! "o1"
    = Some offer_o1_again.
Proof.
  assert (validateOffer offer_o1 = true) as Hv by (vm_compute; reflexivity).
  assert (validateOffer offer_o1_again = true) as Hv2
    by (vm_compute; reflexivity).
  destruct (offer_stored_last_write_wins offer_o1 offer_o1_again 1%nat 2%nat
              three_connected Hv Hv2 eq_refl)
    as (_ & Hfirst & _ & Hsecond & _).
  split_and!; [exact Hv | exact Hv2 | reflexivity | exact Hfirst | exact Hsecond].
Defined.

(** An OFFER that reuses the open id "o1" replaces the offer stored under it. *)
Lemma reused_offer_id_replaces_offer :
  let st := step (Message 2%nat 1500 (Some (OFFER offer_o1_again))) offered_o1 in
  validateOffer offer_o1_again = true
  ∧ activeOffers offered_o1 !! "o1" = Some offer_o1
  ∧ activeOffers st !! "o1" = Some offer_o1_again.
Proof. vm_compute. split_and!; reflexivity. Qed.

Lemma session_reachable : reachable session_state.
Proof. apply reachable_run. constructor. Qed.

Lemma no_self_trade_witness :
  activeOffers offered_o1 !! "o1" = Some offer_o1
  ∧ handleAccept 2000 {| accept_id := "o1"; accept_from := "A" |} 1%nat
      offered_o1 = offered_o1
  ∧ activeInvoices session_state !! "o1"
    = Some (invoice_for 2000 offer_o1 "B")
  ∧ buyer (invoice_for 2000 offer_o1 "B") ≠ seller (invoice_for 2000 offer_o1 "B").
Proof.
  assert (activeOffers offered_o1 !! "o1" = Some offer_o1) as Ho
    by (vm_compute; reflexivity).
  assert (activeInvoices session_state !! "o1"
          = Some (invoice_for 2000 offer_o1 "B")) as Hinv
    by (vm_compute; reflexivity).
  destruct no_self_trade as [Hreject Hdistinct].
  destruct (Hreject 2000 {| accept_id := "o1"; accept_from := "A" |} 1%nat
              offered_o1 offer_o1 Ho eq_refl) as (_ & Hsame & _).
  split_and!; [exact Ho | exact Hsame | exact Hinv |].
  exact (Hdistinct session_state session_reachable "o1" _ Hinv).
Defined.

Lemma spectators_never_get_invoice_witness :
  narration_to_spectator ∈ sent session_state
  ∧ rcpt_type narration_to_spectator = spectator
  ∧ ∃ m, body narration_to_spectator = Frame m
         ∧ (kind m = K_CHAT ∨ kind m = K_OFFER ∨ kind m = K_ACCEPT
            ∨ kind m = K_PAY)
         ∧ kind m ≠ K_INVOICE.
Proof.
  assert (narration_to_spectator ∈ sent session_state) as Hin.
  { apply (list_elem_of_lookup_2 _ 5%nat). vm_compute. reflexivity. }
  destruct spectators_never_get_invoice as [Hkinds _].
  split_and!; [exact Hin | reflexivity |].
  exact (Hkinds session_state session_reachable _ Hin eq_refl).
Defined.



End Samples.

(** * Further properties of the rules module and of the server *)

(** ** Generated names *)

Lemma hashValue_app (a b : string) :
  hashValue (a +:+ b) = (hashValue a + hashValue b)%nat.
Proof. induction a as [|ch a IH]; simpl; [done|]. rewrite IH. lia. Qed.

Lemma generateAgentName_index (a : string) :
  generateAgentName a
  = nth (hashValue a mod 10) adjectives ""
    +:+ " " +:+ nth (((hashValue a mod 10) * 3) mod 10) agentTypes "".
Proof.
  unfold generateAgentName. cbv zeta.
  change (length adjectives) with 10%nat.
  change (length agentTypes) with 10%nat.
  do 3 f_equal.
  rewrite <-(Nat.Div0.mul_mod_idemp_l (hashValue a) 13 10).
  rewrite <-(Nat.Div0.mul_mod_idemp_r (hashValue a mod 10) 13 10).
  done.
Qed.

(** X1. A generated name is always an adjective of the table, a space and an
    agent type of the table: the two indices are in range for every address,
    the empty one included, and the name is never empty. *)
Theorem generateAgentName_from_tables (a : string) :
  ∃ adj ty,
    adj ∈ adjectives ∧ ty ∈ agentTypes
    ∧ generateAgentName a = adj +:+ " " +:+ ty
    ∧ generateAgentName a ≠ "".
Proof.
  exists (nth (hashValue a mod 10) adjectives ""),
         (nth (((hashValue a mod 10) * 3) mod 10) agentTypes "").
  assert (∀ (l : list string) i, (i < length l)%nat → nth i l "" ∈ l) as Hnth.
  { intros l i Hi. apply list_elem_of_In. by apply nth_In. }
  split_and!.
  - apply Hnth. apply Nat.mod_upper_bound. done.
  - apply Hnth. apply Nat.mod_upper_bound. done.
  - apply generateAgentName_index.
  - rewrite generateAgentName_index.
    by destruct (nth (hashValue a mod 10) adjectives "").
Qed.

(** X2. The generated name depends only on the sum of the character codes of
    the address modulo 10: two addresses whose sums agree modulo 10 get the
    same name, the order of the characters does not matter, and the type
    index is fixed by the adjective index, so that only ten of the hundred
    adjective and type pairs are ever produced. *)
Theorem generateAgentName_collisions :
  (∀ a b : string,
     (hashValue a mod 10 = hashValue b mod 10)%nat →
     generateAgentName a = generateAgentName b)
  ∧ (∀ a b : string, generateAgentName (a +:+ b) = generateAgentName (b +:+ a))
  ∧ (∀ a : string,
       ∃ i, (i < 10)%nat
            ∧ generateAgentName a
              = nth i adjectives "" +:+ " "
                +:+ nth ((i * 3) mod 10) agentTypes "").
Proof.
  split_and!.
  - intros a b Hab. by rewrite !generateAgentName_index, Hab.
  - intros a b. rewrite !generateAgentName_index, !hashValue_app.
    by rewrite (Nat.add_comm (hashValue a)).
  - intros a. exists (hashValue a mod 10)%nat.
    split; [by apply Nat.mod_upper_bound | apply generateAgentName_index].
Qed.

(** ** The invoice store *)

(** X3. Creating an invoice stores it under the offer's id, where [getInvoice]
    finds it and the other ids are as before; completing it hands it back and
    removes it, which restores the store when the id was free before; and
    completing an id that has no invoice returns nothing and changes
    nothing. *)
Theorem invoice_store_round_trip (now : Z) (o : OfferMsg) (acceptedBy : string)
    (m : gmap string Invoice) :
  let inv := (createInvoice now o acceptedBy m).1 in
  let m' := (createInvoice now o acceptedBy m).2 in
  inv = invoice_for now o acceptedBy
  ∧ getInvoice (offer_id o) m' = Some inv
  ∧ (∀ id, id ≠ offer_id o → getInvoice id m' = getInvoice id m)
  ∧ completeInvoice (offer_id o) m' = (Some inv, delete (offer_id o) m)
  ∧ (m !! offer_id o = None → (completeInvoice (offer_id o) m').2 = m)
  ∧ getInvoice (offer_id o) (completeInvoice (offer_id o) m').2 = None
  ∧ (∀ id, m !! id = None → completeInvoice id m = (None, m)).
Proof.
  simpl. unfold getInvoice, completeInvoice. split_and!.
  - done.
  - apply lookup_insert_eq.
  - intros id Hid. by rewrite lookup_insert_ne.
  - by rewrite lookup_insert_eq, delete_insert_eq.
  - intros Hfree. rewrite lookup_insert_eq. simpl.
    rewrite delete_insert_eq. by apply delete_id.
  - rewrite lookup_insert_eq. simpl. apply lookup_delete_eq.
  - intros id Hid. by rewrite Hid.
Qed.

(** X4. A sweep only removes entries, and a later sweep absorbs an earlier
    one: sweeping at [now1] and then at [now2], with [now1] not after [now2],
    leaves what a single sweep at [now2] leaves. *)
Theorem cleanup_later_sweep_absorbs (now1 now2 : Z) (m : gmap string Invoice) :
  now1 ≤ now2 →
  cleanupExpiredInvoices now1 m ⊆ m
  ∧ cleanupExpiredInvoices now2 (cleanupExpiredInvoices now1 m)
    = cleanupExpiredInvoices now2 m.
Proof.
  intros Hle. split.
  - apply map_subseteq_spec. intros id inv.
    rewrite cleanupExpiredInvoices_lookup.
    destruct (m !! id) as [inv'|]; [|done]. by destruct (expired now1 inv').
  - apply map_eq. intros id. rewrite !cleanupExpiredInvoices_lookup.
    destruct (m !! id) as [inv|]; [|done].
    unfold expired. destruct (bool_decide (now1 - _ > _)) eqn:H1.
    + apply bool_decide_eq_true in H1.
      rewrite bool_decide_eq_true_2; [done | lia].
    + done.
Qed.

(** ** The ledger over whole negotiations *)

Lemma validateOffer_true (o : OfferMsg) :
  validateOffer o = true →
  offer_id o ≠ "" ∧ offer_skill o ≠ "" ∧ offer_from o ≠ ""
  ∧ PrimFloat.leb (offer_price o) 0%float = false.
Proof.
  unfold validateOffer.
  destruct (truthy (offer_id o)) eqn:Hid; [|done].
  destruct (truthy (offer_skill o)) eqn:Hskill; [|done].
  destruct (PrimFloat.leb (offer_price o) 0%float) eqn:Hprice; [done|].
  destruct (truthy (offer_from o)) eqn:Hfrom; [|done].
  intros _. by rewrite <-!truthy_true.
Qed.

Section Negotiations.

Context `{JsRuntime}.

(** X5. A whole negotiation: a valid OFFER, an ACCEPT for its id from another
    party and a PAY for its id from the offeror with a settlement reference,
    handled in this order from any sockets, add exactly one record to the
    log, from the offeror to the acceptor for the offered price, and leave
    neither an offer nor an invoice under the id; the other ids are as
    before. *)
Theorem offer_accept_pay_settles (t1 t2 : Z) (o : OfferMsg) (a : AcceptMsg)
    (p : PayMsg) (ws1 ws2 ws3 : WebSocket) (st : Hub) :
  validateOffer o = true →
  accept_id a = offer_id o →
  accept_from a ≠ offer_from o →
  pay_id p = offer_id o →
  pay_from p = offer_from o →
  pay_tx p ≠ "" →
  let st1 := handleOffer o ws1 st in
  let st2 := handleAccept t1 a ws2 st1 in
  let st3 := handlePayment t2 p ws3 st2 in
  activeInvoices st2 !! offer_id o = Some (invoice_for t1 o (accept_from a))
  ∧ transactions st3
    = transactions st ++
        [{| tx_id := offer_id o; tx_timestamp := t2; tx_from := offer_from o;
            tx_to := accept_from a; tx_amount := offer_price o;
            txHash := pay_tx p; tx_status := completed |}]
  ∧ activeOffers st3 !! offer_id o = None
  ∧ activeInvoices st3 !! offer_id o = None
  ∧ (∀ id, id ≠ offer_id o →
       activeOffers st3 !! id = activeOffers st !! id
       ∧ activeInvoices st3 !! id = activeInvoices st !! id).
Proof.
  intros Hv Haid Hne Hpid Hfrom Htx st1 st2 st3.
  destruct (handleOffer_valid o ws1 st Hv) as (Ho1 & Hi1 & Ht1 & _).
  assert (activeOffers st1 !! accept_id a = Some o) as Hopen.
  { subst st1. rewrite Ho1, Haid. apply lookup_insert_eq. }
  destruct (handleAccept_valid t1 a ws2 st1 o Hopen Hne)
    as (Hi2 & Ho2 & Ht2 & _).
  assert (activeInvoices st2 !! pay_id p
          = Some (invoice_for t1 o (accept_from a))) as Hinv.
  { subst st2. rewrite Hi2, Hpid. apply lookup_insert_eq. }
  destruct (handlePayment_valid t2 p ws3 st2 _ Hinv Hfrom Htx)
    as (Ht3 & Hi3 & Ho3).
  subst st3. rewrite Ht3, Hi3, Ho3. subst st2. rewrite Ht2, Hi2, Ho2.
  subst st1. rewrite Ht1, Hi1, Ho1, Hpid. split_and!.
  - apply lookup_insert_eq.
  - unfold settlement. simpl. by rewrite Hpid.
  - apply lookup_delete_eq.
  - apply lookup_delete_eq.
  - intros id Hid.
    by rewrite !lookup_delete_ne, !lookup_insert_ne by done.
Qed.

(** X6. Once the sweep has removed an invoice that is older than the TTL, a
    PAY for it is rejected and changes nothing, so no record is written for
    it; the sweep leaves the offers alone, so the offer of the expired invoice
    is still open and an ACCEPT for it creates a new invoice. *)
Theorem expired_invoice_cannot_be_paid (now now' : Z) (p : PayMsg)
    (a : AcceptMsg) (ws ws2 : WebSocket) (st : Hub) (inv : Invoice)
    (o : OfferMsg) :
  activeInvoices st !! pay_id p = Some inv →
  now - timestamp inv > 600000 →
  activeOffers st !! accept_id a = Some o →
  accept_from a ≠ offer_from o →
  let st' := cleanup now st in
  activeInvoices st' !! pay_id p = None
  ∧ handlePayment now' p ws st' = st'
  ∧ activeOffers st' = activeOffers st
  ∧ activeInvoices (handleAccept now' a ws2 st') !! offer_id o
    = Some (invoice_for now' o (accept_from a)).
Proof.
  intros Hinv Hage Ho Hne st'.
  assert (activeInvoices st' !! pay_id p = None) as Hgone.
  { subst st'. simpl. rewrite cleanupExpiredInvoices_lookup, Hinv.
    unfold expired, expiryTime. by rewrite bool_decide_eq_true_2. }
  split_and!; [done | | done |].
  - apply handlePayment_invalid. by rewrite Hgone.
  - destruct (handleAccept_valid now' a ws2 st' o Ho Hne) as (-> & _).
    apply lookup_insert_eq.
Qed.

Lemma step_ledger_wf (e : Event) (st : Hub) :
  offers_wf st ∧ invoices_wf st ∧ Forall transaction_wf (transactions st) →
  offers_wf (step e st) ∧ invoices_wf (step e st)
  ∧ Forall transaction_wf (transactions (step e st)).
Proof.
  intros (Hoffers & Hinvoices & Htxs).
  destruct e as [ws i qt qn|ws now data|ws|ws|ws|ws| |now| ]; try done.
  - simpl.
    destruct (onMessage_cases now data ws st)
      as [[-> ->]|[(m & -> & _ & _ & ->)|(m & f & -> & ->)]];
      [done | done |].
    destruct m as [o|a|p|c|i|t]; simpl; [| | | |done|done].
    + destruct (validateOffer o) eqn:Hv;
        [|by rewrite handleOffer_invalid].
      destruct (handleOffer_valid o ws (set_clients f st) Hv)
        as (Ho & Hi & Ht & _).
      unfold offers_wf, invoices_wf. rewrite Ho, Hi, Ht. simpl.
      split_and!; [|done|done].
      intros id o' Hl. destruct (decide (offer_id o = id)) as [<-|Hid].
      * rewrite lookup_insert_eq in Hl. by injection Hl as <-.
      * rewrite lookup_insert_ne in Hl by done. by apply Hoffers.
    + destruct (validateAccept a (activeOffers (set_clients f st) !! accept_id a))
        eqn:Hv; [|by rewrite handleAccept_invalid].
      apply validateAccept_true in Hv as (o & Hopen & Hne).
      destruct (handleAccept_valid now a ws _ o Hopen Hne)
        as (Hi & Ho & Ht & _).
      unfold offers_wf, invoices_wf. rewrite Ho, Hi, Ht. simpl.
      split_and!; [done| |done].
      destruct (Hoffers _ _ Hopen) as [Hkey Hvalid].
      apply validateOffer_true in Hvalid as (Hid & Hskill & Hfrom & _).
      intros id inv Hl. destruct (decide (offer_id o = id)) as [<-|Hne'].
      * rewrite lookup_insert_eq in Hl. injection Hl as <-. simpl.
        split_and!; first [done | congruence].
      * rewrite lookup_insert_ne in Hl by done. by apply Hinvoices.
    + destruct (validatePayment p (activeInvoices (set_clients f st) !! pay_id p))
        eqn:Hv; [|by rewrite handlePayment_invalid].
      apply validatePayment_true in Hv as (inv & Hinv & Hfrom & Htx).
      destruct (handlePayment_valid now p ws _ inv Hinv Hfrom Htx)
        as (Ht & Hi & Ho).
      unfold offers_wf, invoices_wf. rewrite Ho, Hi, Ht. simpl.
      destruct (Hinvoices _ _ Hinv) as (_ & Hid & Hbuyer & _ & Hdistinct).
      split_and!.
      * intros id o' Hl. apply lookup_delete_Some in Hl as [_ Hl].
        by apply Hoffers.
      * intros id inv' Hl. apply lookup_delete_Some in Hl as [_ Hl].
        by apply Hinvoices.
      * apply Forall_app. split; [done|]. apply Forall_singleton.
        by split_and!.
    + unfold offers_wf, invoices_wf, handleChat. simpl.
      by repeat case_bool_decide.
  - unfold offers_wf, invoices_wf. simpl. split_and!; [done| |done].
    intros id inv. rewrite cleanupExpiredInvoices_lookup. intros Hl.
    apply Hinvoices.
    destruct (activeInvoices st !! id) as [inv'|]; [|done].
    by destruct (expired now inv').
Qed.

Lemma reachable_ledger_wf (st : Hub) :
  reachable st →
  offers_wf st ∧ invoices_wf st ∧ Forall transaction_wf (transactions st).
Proof.
  induction 1 as [|e st _ IH]; [|by apply step_ledger_wf].
  unfold offers_wf, invoices_wf. simpl. split_and!; [| |done].
  - intros id o. by rewrite lookup_empty.
  - intros id inv. by rewrite lookup_empty.
Qed.

(** X7. In every state the server reaches, each open offer is stored under
    its own id and passes [validateOffer], and each invoice is stored under
    its own id, which is not empty, with a buyer and a skill that are not
    empty. *)
Theorem reachable_ledger_keys (st : Hub) :
  reachable st →
  (∀ id o, activeOffers st !! id = Some o →
     offer_id o = id ∧ validateOffer o = true)
  ∧ (∀ id inv, activeInvoices st !! id = Some inv →
       invoice_id inv = id ∧ id ≠ "" ∧ buyer inv ≠ ""
       ∧ invoice_skill inv ≠ "").
Proof.
  intros Hst. destruct (reachable_ledger_wf st Hst) as (Ho & Hi & _).
  split; [exact Ho|]. intros id inv Hl.
  destruct (Hi id inv Hl) as (? & ? & ? & ? & _). done.
Qed.

(** X8. In every state the server reaches, each record of the transaction
    log has status completed, an id and a settlement reference that are not
    empty, a payer that is not empty, and a payer different from the payee:
    no pending or failed record is ever written. *)
Theorem reachable_transactions_completed (st : Hub) :
  reachable st →
  ∀ t, t ∈ transactions st →
    tx_status t = completed ∧ tx_id t ≠ "" ∧ txHash t ≠ ""
    ∧ tx_from t ≠ "" ∧ tx_from t ≠ tx_to t.
Proof.
  intros Hst t Ht. destruct (reachable_ledger_wf st Hst) as (_ & _ & Htxs).
  rewrite Forall_forall in Htxs. by apply Htxs.
Qed.

Lemma step_transactions (e : Event) (st : Hub) :
  e ≠ ApiReset →
  transactions (step e st) = transactions st
  ∨ ∃ ws now p inv,
      e = Message ws now (Some (PAY p))
      ∧ activeInvoices st !! pay_id p = Some inv
      ∧ pay_from p = buyer inv
      ∧ transactions (step e st) = transactions st ++ [settlement now p inv].
Proof.
  intros Hreset.
  destruct e as [ws i qt qn|ws now data|ws|ws|ws|ws| |now| ];
    try (by left).
  simpl.
  destruct (onMessage_cases now data ws st)
    as [[-> ->]|[(m & -> & _ & _ & ->)|(m & f & -> & ->)]];
    [by left | by left |].
  destruct m as [o|a|p|c|i|t]; simpl; [| | | |by left|by left].
  - left. destruct (validateOffer o) eqn:Hv;
      [|by rewrite handleOffer_invalid].
    by destruct (handleOffer_valid o ws (set_clients f st) Hv)
      as (_ & _ & -> & _).
  - left.
    destruct (validateAccept a (activeOffers (set_clients f st) !! accept_id a))
      eqn:Hv; [|by rewrite handleAccept_invalid].
    apply validateAccept_true in Hv as (o & Hopen & Hne).
    by destruct (handleAccept_valid now a ws _ o Hopen Hne)
      as (_ & _ & -> & _).
  - destruct (validatePayment p (activeInvoices (set_clients f st) !! pay_id p))
      eqn:Hv; [|left; by rewrite handlePayment_invalid].
    apply validatePayment_true in Hv as (inv & Hinv & Hfrom & Htx).
    right. exists ws, now, p, inv.
    by destruct (handlePayment_valid now p ws _ inv Hinv Hfrom Htx)
      as (-> & _ & _).
  - left. unfold handleChat. simpl. by repeat case_bool_decide.
Qed.

(** X9. The transaction log is append-only between resets: an event other
    than a reset leaves the log as it is, unless it is a PAY that is valid for
    an invoice, which appends the one record of that settlement; so through
    any sequence of events without a reset the earlier log is a prefix of
    the later one. *)
Theorem transactions_append_only (es : list Event) (st : Hub) :
  Forall (λ e, e ≠ ApiReset) es →
  transactions st `prefix_of` transactions (run es st)
  ∧ (∀ e, e ≠ ApiReset →
       transactions (step e st) = transactions st
       ∨ ∃ ws now p inv,
           e = Message ws now (Some (PAY p))
           ∧ activeInvoices st !! pay_id p = Some inv
           ∧ pay_from p = buyer inv
           ∧ transactions (step e st)
             = transactions st ++ [settlement now p inv]).
Proof.
  intros Hes. split; [|intros e; apply step_transactions].
  revert st. induction Hes as [|e es He _ IH]; intros st; [done|].
  simpl. etrans; [|apply IH].
  destruct (step_transactions e st He) as [-> | (? & ? & ? & ? & _ & _ & _ & ->)];
    [done | by apply prefix_app_r].
Qed.

End Negotiations.

(** ** The connection registry *)

Lemma clients_get_set (w ws : WebSocket) (c : Client)
    (l : list (WebSocket * Client)) :
  clients_get w (clients_set ws c l)
  = if decide (ws = w) then Some c else clients_get w l.
Proof.
  induction l as [|[w' c'] l IH]; simpl.
  - by destruct (decide (ws = w)).
  - destruct (decide (w' = ws)) as [->|Hw']; simpl.
    + by destruct (decide (ws = w)).
    + rewrite IH. destruct (decide (w' = w)) as [->|]; [|done].
      by rewrite decide_False by done.
Qed.

Lemma clients_get_delete (w ws : WebSocket) (l : list (WebSocket * Client)) :
  clients_get w (clients_delete ws l)
  = if decide (w = ws) then None else clients_get w l.
Proof.
  unfold clients_delete. induction l as [|[w' c'] l IH]; simpl.
  - by destruct (decide (w = ws)).
  - rewrite filter_cons. simpl. destruct (decide (w' ≠ ws)) as [Hw'|Hw']; simpl.
    + rewrite IH. destruct (decide (w' = w)) as [->|]; [|done].
      by rewrite decide_False by done.
    + apply dec_stable in Hw'. subst w'. rewrite IH.
      destruct (decide (w = ws)) as [->|]; [done|].
      by rewrite decide_False by done.
Qed.

Lemma keys_set (ws : WebSocket) (c : Client) (l : list (WebSocket * Client)) :
  NoDup (fst <$> l) → NoDup (fst <$> clients_set ws c l).
Proof.
  assert (∀ l' w, w ∈ fst <$> clients_set ws c l' → w = ws ∨ w ∈ fst <$> l')
    as Hkeys.
  { induction l' as [|[w' c'] l' IH]; simpl; intros w Hw.
    - apply list_elem_of_singleton in Hw. by left.
    - destruct (decide (w' = ws)) as [->|]; csimpl in *.
      + by right.
      + apply elem_of_cons in Hw as [->|Hw].
        * right. apply elem_of_cons. by left.
        * destruct (IH w Hw); [by left|]. right. apply elem_of_cons. by right. }
  induction l as [|[w' c'] l IH]; simpl; intros Hl.
  - apply NoDup_singleton.
  - destruct (decide (w' = ws)) as [->|Hw']; [done|]. csimpl in *.
    apply NoDup_cons in Hl as [Hnotin Hl]. apply NoDup_cons. split; [|by apply IH].
    intros Hin. by destruct (Hkeys l w' Hin).
Qed.

Lemma keys_update (ws : WebSocket) (f : Client → Client)
    (l : list (WebSocket * Client)) :
  fst <$> clients_update ws f l = fst <$> l.
Proof.
  induction l as [|[w c] l IH]; [done|]. simpl.
  case_decide; csimpl; [done | by rewrite IH].
Qed.

Lemma keys_update_first (p : Client → bool) (f : Client → Client)
    (l : list (WebSocket * Client)) :
  fst <$> clients_update_first p f l = fst <$> l.
Proof.
  induction l as [|[w c] l IH]; [done|]. simpl.
  destruct (p c); csimpl; [done | by rewrite IH].
Qed.

Lemma keys_filter (P : WebSocket * Client → Prop) `{∀ e, Decision (P e)}
    (l : list (WebSocket * Client)) :
  NoDup (fst <$> l) → NoDup (fst <$> filter P l).
Proof.
  induction l as [|e l IH]; [done|]. csimpl. intros [Hnotin Hl]%NoDup_cons.
  rewrite filter_cons. destruct (decide (P e)); [|by apply IH]. csimpl.
  apply NoDup_cons. split; [|by apply IH].
  intros Hin. apply Hnotin.
  apply list_elem_of_fmap in Hin as (e' & -> & He').
  apply list_elem_of_filter in He' as [_ He'].
  by apply list_elem_of_fmap_2.
Qed.

Lemma roles_get (w : WebSocket) (l l' : list (WebSocket * Client)) :
  roles l = roles l' →
  connectionType <$> clients_get w l = connectionType <$> clients_get w l'.
Proof.
  unfold roles. revert l'.
  induction l as [|[w1 c1] l IH]; intros [|[w2 c2] l']; try done.
  csimpl. intros [= -> Htype Hrest]. destruct (decide (w2 = w)); simpl.
  - by rewrite Htype.
  - by apply IH.
Qed.





Section Registry.

Context `{JsRuntime}.

Lemma keys_after (m : AnyMsg) (ws : WebSocket) (l : list (WebSocket * Client)) :
  fst <$> clients_after m ws l = fst <$> l.
Proof.
  destruct m; simpl;
    by rewrite ?keys_update_first, ?keys_update.
Qed.

Lemma step_sockets_unique (e : Event) (st : Hub) :
  sockets_unique st → sockets_unique (step e st).
Proof.
  unfold sockets_unique.
  destruct e as [ws i qt qn|ws now data|ws|ws|ws|ws| |now| ]; try done;
    simpl; intros Hst.
  - by apply keys_set.
  - destruct data as [m|]; [|done].
    rewrite onMessage_clients. destruct (passes m ws st); [|done].
    by rewrite keys_after.
  - by rewrite keys_update.
  - by apply keys_filter.
  - by apply keys_filter.
  - rewrite <-list_fmap_compose.
    assert (fst ∘ (λ e : WebSocket * Client, (e.1, set_isAlive false e.2))
              <$> filter (λ e, isAlive e.2 = true) (clients st)
            = fst <$> filter (λ e, isAlive e.2 = true) (clients st)) as ->
      by (by apply list_fmap_ext).
    by apply keys_filter.
Qed.

(** X10. In every state the server reaches, no socket has two entries in the
    connection table, so the entry that [clients.get] finds for a socket is
    its only one. *)
Theorem reachable_sockets_unique (st : Hub) :
  reachable st →
  NoDup (fst <$> clients st)
  ∧ (∀ ws c, (ws, c) ∈ clients st → clients_get ws (clients st) = Some c).
Proof.
  intros Hst.
  assert (sockets_unique st) as Hu.
  { induction Hst as [|e st _ IH]; [constructor | by apply step_sockets_unique]. }
  split; [exact Hu|].
  unfold sockets_unique in Hu. clear Hst.
  induction (clients st) as [|[w c'] l IH]; intros ws c Hin.
  - by apply elem_of_nil in Hin.
  - csimpl in Hu. apply NoDup_cons in Hu as [Hnotin Hl]. simpl.
    apply elem_of_cons in Hin as [[= -> ->]|Hin].
    + by rewrite decide_True.
    + rewrite decide_False; [by apply IH|].
      intros ->. apply Hnotin.
      by apply (list_elem_of_fmap_2 fst l (ws, c)).
Qed.

Lemma step_roles (e : Event) (st : Hub) :
  keeps_connections e → roles (clients (step e st)) = roles (clients st).
Proof.
  destruct e as [ws i qt qn|ws now data|ws|ws|ws|ws| |now| ]; try done;
    intros _.
  - exact (proj1 (onMessage_emits now data ws st)).
  - simpl. by apply roles_update.
Qed.

(** X11. The connection type of a socket is fixed when it connects: no frame,
    pong, sweep of invoices or reset changes the type of any entry, so through
    any sequence of such events each socket keeps the type it has. *)
Theorem connection_type_fixed (es : list Event) (st : Hub) (ws : WebSocket) :
  Forall keeps_connections es →
  roles (clients (run es st)) = roles (clients st)
  ∧ connectionType <$> clients_get ws (clients (run es st))
    = connectionType <$> clients_get ws (clients st).
Proof.
  intros Hes.
  assert (roles (clients (run es st)) = roles (clients st)) as Hroles.
  { revert st. induction Hes as [|e es He _ IH]; intros st; [done|].
    simpl. rewrite IH. by apply step_roles. }
  split; [done | by apply roles_get].
Qed.




End Registry.

(** ** The audiences of the broadcast helpers *)

(** X13. [broadcast] sends its message to exactly these connections: the
    entries of the table, other than the sender, whose socket is open and
    which are agents or, when the message is a frame of kind CHAT, OFFER,
    ACCEPT or PAY, spectators.  So the sender never gets its own message
    back, a socket that is not open gets nothing, and a message given as a
    string never reaches a spectator. *)
Theorem broadcast_audience (message : Payload) (sender : option WebSocket)
    (st : Hub) (d : Delivery) :
  d ∈ broadcast_to message sender st ↔
  ∃ w c, (w, c) ∈ clients st
         ∧ sender ≠ Some w
         ∧ w ∈ wsOpen st
         ∧ (connectionType c = agent
            ∨ ∃ m, message = Frame m ∧ spectator_kind m = true)
         ∧ d = {| rcpt := w; rcpt_type := connectionType c; body := message |}.
Proof.
  unfold broadcast_to. rewrite list_elem_of_In, in_flat_map. split.
  - intros ([w c] & Hin & Hd). apply list_elem_of_In in Hin.
    unfold is_sender, is_open in Hd.
    case_bool_decide as Hsender; [done|].
    case_bool_decide as Hopen; [|done]. simpl in Hd.
    exists w, c. destruct (connectionType c) eqn:Htype.
    + destruct Hd as [<-|[]]. split_and!; auto.
    + destruct message as [m|s]; [|done].
      destruct (spectator_kind m) eqn:Hkind; [|done].
      destruct Hd as [<-|[]]. split_and!; eauto.
  - intros (w & c & Hin & Hsender & Hopen & Hkind & ->).
    exists (w, c). split; [by apply list_elem_of_In|].
    unfold is_sender, is_open.
    rewrite bool_decide_eq_false_2, bool_decide_eq_true_2 by done. simpl.
    destruct (connectionType c) eqn:Htype; [by left|].
    destruct Hkind as [|(m & -> & ->)]; [done | by left].
Qed.

(** X14. [broadcastToAgents] sends its message to exactly the agent entries
    of the table, other than the sender, whose socket is open; a spectator
    never gets anything from it, whatever the message. *)
Theorem broadcastToAgents_audience (message : Payload)
    (sender : option WebSocket) (st : Hub) (d : Delivery) :
  d ∈ broadcastToAgents_to message sender st ↔
  ∃ w c, (w, c) ∈ clients st
         ∧ sender ≠ Some w
         ∧ w ∈ wsOpen st
         ∧ connectionType c = agent
         ∧ d = {| rcpt := w; rcpt_type := agent; body := message |}.
Proof.
  unfold broadcastToAgents_to. rewrite list_elem_of_In, in_flat_map. split.
  - intros ([w c] & Hin & Hd). apply list_elem_of_In in Hin.
    unfold is_sender, is_open in Hd.
    case_bool_decide as Hsender; [done|].
    case_bool_decide as Hopen; [|done]. simpl in Hd.
    case_bool_decide as Htype; [|done].
    destruct Hd as [<-|[]]. by exists w, c.
  - intros (w & c & Hin & Hsender & Hopen & Htype & ->).
    exists (w, c). split; [by apply list_elem_of_In|].
    unfold is_sender, is_open.
    rewrite bool_decide_eq_false_2, !bool_decide_eq_true_2 by done.
    by left.
Qed.

Lemma sendToAddress_find_spec (addr : string) (st : Hub)
    (l : list (WebSocket * Client)) :
  match sendToAddress_find addr st l with
  | Some ws =>
      ∃ c, (ws, c) ∈ l ∧ address c = Some addr
           ∧ connectionType c = agent ∧ ws ∈ wsOpen st
  | None =>
      ∀ w c, (w, c) ∈ l → address c = Some addr →
             connectionType c = agent → w ∉ wsOpen st
  end.
Proof.
  induction l as [|[w c] l IH]; simpl.
  - intros w c Hin. by apply elem_of_nil in Hin.
  - unfold has_address, is_open.
    case_bool_decide as Haddr; simpl.
    + case_bool_decide as Hopen.
      * destruct (connectionType c) eqn:Htype.
        -- exists c. split_and!; [apply elem_of_cons; by left|done..].
        -- destruct (sendToAddress_find addr st l) as [ws|].
           ++ destruct IH as (c' & Hin & ?). exists c'.
              split; [apply elem_of_cons; by right | done].
           ++ intros w' c' [[= -> ->]|Hin]%elem_of_cons ? ?;
                [congruence | by eapply IH].
      * destruct (sendToAddress_find addr st l) as [ws|].
        -- destruct IH as (c' & Hin & ?). exists c'.
           split; [apply elem_of_cons; by right | done].
        -- intros w' c' [[= -> ->]|Hin]%elem_of_cons ? ?;
             [done | by eapply IH].
    + destruct (sendToAddress_find addr st l) as [ws|].
      * destruct IH as (c' & Hin & ?). exists c'.
        split; [apply elem_of_cons; by right | done].
      * intros w' c' [[= -> ->]|Hin]%elem_of_cons ? ?;
          [done | by eapply IH].
Qed.

(** X15. [sendToAddress] is point-to-point and best-effort.  When it answers
    true it has sent the frame once, to an agent connection that is bound to
    the address and whose socket is open, and has changed nothing else; when
    it answers false there is no such connection and the state is as it
    was. *)
Theorem sendToAddress_point_to_point (addr : string) (message : AnyMsg)
    (st : Hub) :
  let r := sendToAddress addr message st in
  (r.1 = true →
     ∃ w c, (w, c) ∈ clients st ∧ address c = Some addr
            ∧ connectionType c = agent ∧ w ∈ wsOpen st
            ∧ sent r.2 = sent st ++
                [{| rcpt := w; rcpt_type := agent; body := Frame message |}])
  ∧ (r.1 = false →
       r.2 = st
       ∧ ∀ w c, (w, c) ∈ clients st → address c = Some addr →
                connectionType c = agent → w ∉ wsOpen st)
  ∧ clients r.2 = clients st
  ∧ activeOffers r.2 = activeOffers st
  ∧ activeInvoices r.2 = activeInvoices st
  ∧ transactions r.2 = transactions st.
Proof.
  simpl. unfold sendToAddress.
  pose proof (sendToAddress_find_spec addr st (clients st)) as Hspec.
  destruct (sendToAddress_find addr st (clients st)) as [ws|]; simpl.
  - split_and!; try done. intros _.
    destruct Hspec as (c & ? & ? & ? & ?). by exists ws, c.
  - split_and!; done.
Qed.

(** ** What the handlers send *)

Section HandlerSends.

Context `{JsRuntime}.

Lemma handler_sends_start (ws : WebSocket) (st0 st : Hub) :
  sent st = sent st0 → handler_sends ws st0 st.
Proof. intros Hs. exists []. by rewrite app_nil_r. Qed.

Lemma handler_sends_more (ws : WebSocket) (st0 st : Hub) (ds : list Delivery) :
  Forall (handler_delivery ws (clients st)) ds →
  handler_sends ws st0 st → handler_sends ws st0 (send ds st).
Proof.
  intros Hds (ds0 & Hs & Hok). exists (ds0 ++ ds). simpl.
  split; [by rewrite Hs, app_assoc | by apply Forall_app].
Qed.

Lemma handler_sends_broadcast (ws : WebSocket) (message : Payload)
    (st0 st : Hub) :
  (∀ i, message ≠ Frame (INVOICE i)) →
  handler_sends ws st0 st →
  handler_sends ws st0 (broadcast message (Some ws) st).
Proof.
  intros Hm. apply handler_sends_more, Forall_forall. intros d Hd.
  apply broadcast_audience in Hd as (w & c & _ & Hsender & _ & _ & ->).
  left. split; [simpl; congruence | done].
Qed.

Lemma handler_sends_broadcastToAgents (ws : WebSocket) (message : Payload)
    (st0 st : Hub) :
  (∀ i, message ≠ Frame (INVOICE i)) →
  handler_sends ws st0 st →
  handler_sends ws st0 (broadcastToAgents message (Some ws) st).
Proof.
  intros Hm. apply handler_sends_more, Forall_forall. intros d Hd.
  apply broadcastToAgents_audience in Hd as (w & c & _ & Hsender & _ & _ & ->).
  left. split; [simpl; congruence | done].
Qed.

Lemma handler_sends_sendToAddress (ws : WebSocket) (addr : string)
    (i : InvoiceMsg) (st0 st : Hub) :
  addr = invmsg_buyer i ∨ addr = invmsg_seller i →
  handler_sends ws st0 st →
  handler_sends ws st0 (sendToAddress addr (INVOICE i) st).2.
Proof.
  intros Haddr Hst. unfold sendToAddress.
  pose proof (sendToAddress_find_spec addr st (clients st)) as Hspec.
  destruct (sendToAddress_find addr st (clients st)) as [w|]; [|done].
  apply handler_sends_more; [|done]. apply Forall_singleton.
  destruct Hspec as (c & Hin & Hc & Htype & _).
  right. exists i, c. split_and!; [done..|].
  destruct Haddr as [<- | <-]; auto.
Qed.

Ltac handler_sends_chain :=
  repeat first
    [ apply handler_sends_broadcast; [by intros ?|]
    | apply handler_sends_broadcastToAgents; [by intros ?|]
    | apply handler_sends_sendToAddress; [by auto|]
    | by apply handler_sends_start ].

Lemma handleMessage_sends (now : Z) (m : AnyMsg) (ws : WebSocket) (st : Hub) :
  handler_sends ws st (handleMessage now m ws st).
Proof.
  destruct m as [o|a|p|c|i|t]; simpl; try by apply handler_sends_start.
  - unfold handleOffer. destruct (validateOffer o); cbn [negb]; cbv zeta;
      handler_sends_chain.
  - unfold handleAccept.
    destruct (validateAccept a (activeOffers st !! accept_id a)); cbn [negb];
      cbv zeta; [|handler_sends_chain].
    destruct (activeOffers st !! accept_id a) as [o|]; [|handler_sends_chain].
    case_bool_decide; [handler_sends_chain|].
    unfold createInvoice. cbv beta iota zeta. handler_sends_chain.
  - unfold handlePayment.
    destruct (validatePayment p (getInvoice (pay_id p) (activeInvoices st)));
      cbn [negb]; cbv zeta; [|handler_sends_chain].
    destruct (getInvoice (pay_id p) (activeInvoices st)) as [inv|];
      handler_sends_chain.
  - unfold handleChat. cbv zeta. apply handler_sends_broadcast; [by intros ?|].
    case_bool_decide; by apply handler_sends_start.
Qed.

(** X16. Whatever a handler sends for a frame that came from the socket [ws]
    is either a frame that is not an INVOICE, sent to another socket, or an
    INVOICE sent to an agent connection that is bound to the invoice's buyer
    or to its seller.  So the sender gets none of the broadcasts of its own
    frame back, and an INVOICE reaches only the two parties. *)
Theorem handler_sends_spec (now : Z) (m : AnyMsg) (ws : WebSocket) (st : Hub) :
  ∃ ds,
    sent (handleMessage now m ws st) = sent st ++ ds
    ∧ ∀ d, d ∈ ds →
        (rcpt d ≠ ws ∧ ∀ i, body d ≠ Frame (INVOICE i))
        ∨ (∃ i c, body d = Frame (INVOICE i)
                  ∧ (rcpt d, c) ∈ clients (handleMessage now m ws st)
                  ∧ connectionType c = agent
                  ∧ (address c = Some (invmsg_buyer i)
                     ∨ address c = Some (invmsg_seller i))).
Proof.
  destruct (handleMessage_sends now m ws st) as (ds & Hs & Hok).
  exists ds. split; [done|]. by apply Forall_forall.
Qed.

(** X17. A frame that is not a CHAT, from a sender that is not a spectator,
    and that its handler rejects (an OFFER, ACCEPT or PAY that fails its
    validation) or that has no handler (an INVOICE or an unknown kind) is
    dropped silently: the state is as before and nothing is sent.  The same
    goes for data that does not parse. *)
Theorem rejected_frame_dropped (now : Z) (m : AnyMsg) (ws : WebSocket)
    (st : Hub) :
  ¬ sender_is_spectator ws st →
  is_chat m = false →
  passes m ws st = false →
  onMessage now (Some m) ws st = st
  ∧ onMessage now None ws st = st.
Proof.
  intros Hrole Hchat Hpass. split; [|done].
  rewrite onMessage_dispatch by done.
  unfold passes in Hpass. rewrite bool_decide_eq_false_2 in Hpass by done.
  destruct m as [o|a|p|c|i|t]; simpl in *; try done.
  - by apply handleOffer_invalid.
  - by apply handleAccept_invalid.
  - by apply handlePayment_invalid.
Qed.

(** X18. A CHAT whose [from] is not "system" is relayed as it is, from an
    agent or from a spectator: every other entry of the connection table
    whose socket is open is sent the very frame, nothing is sent back to the
    sender, and the offers, the invoices and the transaction log are not
    touched. *)
Theorem chat_relayed (now : Z) (c : ChatMsg) (ws : WebSocket) (st : Hub) :
  chat_from c ≠ "system" →
  let st' := onMessage now (Some (CHAT c)) ws st in
  sent st' = sent st ++ broadcast_to (Frame (CHAT c)) (Some ws) st'
  ∧ (∀ w cl, (w, cl) ∈ clients st → w ≠ ws → w ∈ wsOpen st →
       {| rcpt := w; rcpt_type := connectionType cl; body := Frame (CHAT c) |}
         ∈ sent st')
  ∧ (∀ d, d ∈ broadcast_to (Frame (CHAT c)) (Some ws) st' → rcpt d ≠ ws)
  ∧ activeOffers st' = activeOffers st
  ∧ activeInvoices st' = activeInvoices st
  ∧ transactions st' = transactions st.
Proof.
  intros Hfrom st'.
  assert (sent st' = sent st ++ broadcast_to (Frame (CHAT c)) (Some ws) st'
          ∧ wsOpen st' = wsOpen st
          ∧ activeOffers st' = activeOffers st
          ∧ activeInvoices st' = activeInvoices st
          ∧ transactions st' = transactions st) as (Hsent & Hopen & ? & ? & ?).
  { subst st'. unfold onMessage. simpl. rewrite andb_false_r.
    rewrite bool_decide_eq_true_2 by done.
    unfold handleChat. cbv zeta.
    rewrite (bool_decide_eq_true_2 (chat_from c ≠ "system")) by done.
    rewrite (bool_decide_eq_false_2 (chat_from c = "system")) by done.
    done. }
  split_and!; try done.
  - intros w cl Hin Hw Hwopen. rewrite Hsent. apply elem_of_app. right.
    apply roles_elem in Hin.
    rewrite <-(proj1 (onMessage_emits now (Some (CHAT c)) ws st)) in Hin.
    fold st' in Hin. unfold roles in Hin.
    apply list_elem_of_fmap in Hin as ([w' cl'] & [= -> Htype] & Hin).
    apply broadcast_audience. exists w', cl'. simpl in *.
    split_and!; [done | congruence | by rewrite Hopen | | by rewrite Htype].
    right. by exists (CHAT c).
  - intros d Hd.
    apply broadcast_audience in Hd as (w & cl & _ & Hsender & _ & _ & ->).
    simpl. congruence.
Qed.

End HandlerSends.

(** ** Connections coming and going *)



Section Liveness.

Context `{JsRuntime}.



(** X20. A new connection gets one entry, alive, with no address, the name
    of the query if that is not empty, and the type spectator exactly when the
    [type] parameter is "spectator"; anything else, or no parameter, makes an
    agent.  The entries of the other sockets are as before, the one thing sent
    is the welcome CHAT to the new socket, and the offers, the invoices and
    the transaction log are not touched. *)
Theorem connection_registered (ws : WebSocket) (id : string)
    (qtype qname : option string) (st : Hub) :
  let st' := onConnection ws id qtype qname st in
  (∃ c, clients_get ws (clients st') = Some c
        ∧ client_id c = id ∧ isAlive c = true ∧ address c = None
        ∧ name c = (if truthy_opt qname then qname else None)
        ∧ (connectionType c = spectator ↔ qtype = Some "spectator")
        ∧ sent st' = sent st ++
            [{| rcpt := ws; rcpt_type := connectionType c;
                body := Frame (welcome (connectionType c) id) |}])
  ∧ (∀ w, w ≠ ws → clients_get w (clients st') = clients_get w (clients st))
  ∧ ws ∈ wsOpen st'
  ∧ activeOffers st' = activeOffers st
  ∧ activeInvoices st' = activeInvoices st
  ∧ transactions st' = transactions st.
Proof.
  simpl. split_and!; try done.
  - eexists. split; [rewrite clients_get_set; by rewrite decide_True|].
    simpl. split_and!; try done.
    case_bool_decide; split; done.
  - intros w Hw. rewrite clients_get_set. by rewrite decide_False.
  - apply elem_of_union. left. by apply elem_of_singleton.
Qed.

(** X21. When a socket closes or fails, its entry is removed and the entries
    of the other sockets stay; nothing is sent, and the offers, the invoices
    and the transaction log are not touched, so what the connection had
    offered or accepted outlives it.  No later broadcast or point-to-point
    send reaches the socket. *)
Theorem connection_closed (ws : WebSocket) (st : Hub) :
  onError ws st = onClose ws st
  ∧ clients_get ws (clients (onClose ws st)) = None
  ∧ (∀ w, w ≠ ws →
       clients_get w (clients (onClose ws st)) = clients_get w (clients st))
  ∧ sent (onClose ws st) = sent st
  ∧ activeOffers (onClose ws st) = activeOffers st
  ∧ activeInvoices (onClose ws st) = activeInvoices st
  ∧ transactions (onClose ws st) = transactions st
  ∧ (∀ message sender d,
       d ∈ broadcast_to message sender (onClose ws st) → rcpt d ≠ ws)
  ∧ (∀ message sender d,
       d ∈ broadcastToAgents_to message sender (onClose ws st) → rcpt d ≠ ws)
  ∧ (∀ addr,
       sendToAddress_find addr (onClose ws st) (clients (onClose ws st))
       ≠ Some ws).
Proof.
  assert (ws ∉ wsOpen (onClose ws st)) as Hclosed.
  { simpl. apply not_elem_of_difference. right. by apply elem_of_singleton. }
  split_and!; try done.
  - simpl. rewrite clients_get_delete. by rewrite decide_True.
  - intros w Hw. simpl. rewrite clients_get_delete. by rewrite decide_False.
  - intros message sender d Hd.
    apply broadcast_audience in Hd as (w & c & _ & _ & Hopen & _ & ->).
    simpl. by intros ->.
  - intros message sender d Hd.
    apply broadcastToAgents_audience in Hd as (w & c & _ & _ & Hopen & _ & ->).
    simpl. by intros ->.
  - intros addr Hfind.
    pose proof (sendToAddress_find_spec addr (onClose ws st)
                  (clients (onClose ws st))) as Hspec.
    rewrite Hfind in Hspec. by destruct Hspec as (c & _ & _ & _ & Hopen).
Qed.

End Liveness.

(** ** The roster *)

(** X22. The roster of [/api/agents] lists exactly the agent connections
    whose address is bound and not empty; a spectator or a connection without
    an address is never listed.
    Each entry carries the full address, a name that is never empty (the
    stored name, or else the generated one) and a balance of zero until the
    ledger service answers. *)
Theorem agentsList_spec (st : Hub) (info : AgentInfo) :
  info ∈ agentsList st ↔
  ∃ ws c a, (ws, c) ∈ clients st
            ∧ connectionType c = agent
            ∧ address c = Some a ∧ a ≠ ""
            ∧ info = agentInfo c
            ∧ fullAddress info = Some a
            ∧ agent_name info = or_else (name c) (generateAgentName a)
            ∧ agent_name info ≠ ""
            ∧ balance info = 0%float.
Proof.
  unfold agentsList. rewrite list_elem_of_fmap. split.
  - intros (c & -> & Hc). apply list_elem_of_filter in Hc as [Hlisted Hc].
    apply list_elem_of_fmap in Hc as ([ws c'] & -> & Hin). simpl in *.
    unfold listed in Hlisted. apply andb_true_iff in Hlisted as [Haddr Htype].
    apply bool_decide_eq_true in Htype.
    destruct (address c') as [a|] eqn:Ha; [|done]. simpl in Haddr.
    apply truthy_true in Haddr.
    exists ws, c', a. split_and!; try done.
    simpl. unfold or_else.
    destruct (generateAgentName_from_tables a) as (_ & _ & _ & _ & _ & Hne).
    destruct (name c') as [n|]; [|done].
    destruct (truthy n) eqn:Hn; [by apply truthy_true | done].
  - intros (ws & c & a & Hin & Htype & Ha & Hne & -> & _).
    exists c. split; [done|]. apply list_elem_of_filter. split.
    + unfold listed. rewrite Ha. simpl.
      rewrite (proj2 (truthy_true a)) by done.
      by rewrite bool_decide_eq_true_2.
    + by apply (list_elem_of_fmap_2 snd (clients st) (ws, c)).
Qed.

(** ** The further properties on the sample data *)

Section MoreSamples.

#[local] Existing Instance sample_runtime.

(** "A" and "K" have character codes 65 and 75. *)
Lemma generateAgentName_collisions_witness :
  (hashValue "A" mod 10 = hashValue "K" mod 10)%nat
  ∧ generateAgentName "A" = generateAgentName "K"
  ∧ generateAgentName "0xab" = generateAgentName "ab0x".
Proof.
  destruct generateAgentName_collisions as (Hmod & Hswap & _).
  split_and!; [reflexivity | by apply Hmod | exact (Hswap "0x" "ab")].
Defined.

Lemma cleanup_later_sweep_absorbs_witness :
  601000 ≤ 601001
  ∧ cleanupExpiredInvoices 601001
      (cleanupExpiredInvoices 601000 (activeInvoices invoiced_o1))
    = cleanupExpiredInvoices 601001 (activeInvoices invoiced_o1).
Proof.
  assert (601000 ≤ 601001) as Hle by lia.
  split; [exact Hle|].
  exact (proj2 (cleanup_later_sweep_absorbs 601000 601001
                  (activeInvoices invoiced_o1) Hle)).
Defined.

Lemma offer_accept_pay_settles_witness :
  validateOffer offer_o1 = true
  ∧ accept_from accept_B ≠ offer_from offer_o1
  ∧ pay_tx pay_o1 ≠ ""
  ∧ transactions
      (handlePayment 3000 pay_o1 1%nat
         (handleAccept 2000 accept_B 2%nat
            (handleOffer offer_o1 1%nat three_connected)))
    = [{| tx_id := "o1"; tx_timestamp := 3000; tx_from := "A"; tx_to := "B";
          tx_amount := 0.5%float; txHash := "r1"; tx_status := completed |}].
Proof.
  assert (validateOffer offer_o1 = true) as Hv by (vm_compute; reflexivity).
  assert (accept_from accept_B ≠ offer_from offer_o1) as Hne by done.
  assert (pay_tx pay_o1 ≠ "") as Htx by done.
  destruct (offer_accept_pay_settles 2000 3000 offer_o1 accept_B pay_o1
              1%nat 2%nat 1%nat three_connected Hv eq_refl Hne eq_refl eq_refl
              Htx) as (_ & Htxs & _).
  split_and!; [exact Hv | exact Hne | exact Htx | exact Htxs].
Defined.

Lemma expired_invoice_cannot_be_paid_witness :
  activeInvoices invoiced_o1 !! pay_id pay_o1 = Some invoice_o1
  ∧ 601001 - timestamp invoice_o1 > 600000
  ∧ handlePayment 700000 pay_o1 1%nat (cleanup 601001 invoiced_o1)
    = cleanup 601001 invoiced_o1
  ∧ activeInvoices
      (handleAccept 700000 accept_C 2%nat (cleanup 601001 invoiced_o1))
      !! "o1"
    = Some (invoice_for 700000 offer_o1 "C").
Proof.
  assert (activeInvoices invoiced_o1 !! pay_id pay_o1 = Some invoice_o1) as Hinv
    by (vm_compute; reflexivity).
  assert (601001 - timestamp invoice_o1 > 600000) as Hage by (simpl; lia).
  assert (activeOffers invoiced_o1 !! accept_id accept_C = Some offer_o1) as Ho
    by (vm_compute; reflexivity).
  assert (accept_from accept_C ≠ offer_from offer_o1) as Hne by done.
  destruct (expired_invoice_cannot_be_paid 601001 700000 pay_o1 accept_C
              1%nat 2%nat invoiced_o1 invoice_o1 offer_o1 Hinv Hage Ho Hne)
    as (_ & Hpay & _ & Hagain).
  split_and!; [exact Hinv | exact Hage | exact Hpay | exact Hagain].
Defined.

Lemma settled_reachable : reachable settled_state.
Proof. apply reachable_run. constructor. Qed.

Lemma reachable_ledger_keys_witness :
  activeInvoices session_state !! "o1" = Some (invoice_for 2000 offer_o1 "B")
  ∧ invoice_id (invoice_for 2000 offer_o1 "B") = "o1"
  ∧ buyer (invoice_for 2000 offer_o1 "B") ≠ "".
Proof.
  assert (activeInvoices session_state !! "o1"
          = Some (invoice_for 2000 offer_o1 "B")) as Hinv
    by (vm_compute; reflexivity).
  destruct (reachable_ledger_keys session_state session_reachable)
    as [_ Hinvoices].
  destruct (Hinvoices "o1" _ Hinv) as (Hid & _ & Hbuyer & _).
  split_and!; [exact Hinv | exact Hid | exact Hbuyer].
Defined.

Lemma reachable_transactions_completed_witness :
  settlement 3000 pay_o1 (invoice_for 2000 offer_o1 "B")
    ∈ transactions settled_state
  ∧ tx_status (settlement 3000 pay_o1 (invoice_for 2000 offer_o1 "B"))
    = completed
  ∧ tx_from (settlement 3000 pay_o1 (invoice_for 2000 offer_o1 "B"))
    ≠ tx_to (settlement 3000 pay_o1 (invoice_for 2000 offer_o1 "B")).
Proof.
  assert (settlement 3000 pay_o1 (invoice_for 2000 offer_o1 "B")
            ∈ transactions settled_state) as Hin.
  { apply (list_elem_of_lookup_2 _ 0%nat). vm_compute. reflexivity. }
  destruct (reachable_transactions_completed settled_state settled_reachable
              _ Hin) as (Hstatus & _ & _ & _ & Hparties).
  split_and!; [exact Hin | exact Hstatus | exact Hparties].
Defined.

Lemma transactions_append_only_witness :
  Forall (λ e, e ≠ ApiReset) [Message 1%nat 3000 (Some (PAY pay_o1))]
  ∧ transactions session_state
      `prefix_of` transactions
                    (run [Message 1%nat 3000 (Some (PAY pay_o1))] session_state).
Proof.
  assert (Forall (λ e, e ≠ ApiReset) [Message 1%nat 3000 (Some (PAY pay_o1))])
    as Hes by (by apply Forall_singleton).
  split; [exact Hes|].
  exact (proj1 (transactions_append_only _ session_state Hes)).
Defined.

Lemma reachable_sockets_unique_witness :
  (2%nat, set_address "B" (sample_client "c2" agent)) ∈ clients session_state
  ∧ clients_get 2%nat (clients session_state)
    = Some (set_address "B" (sample_client "c2" agent)).
Proof.
  assert ((2%nat, set_address "B" (sample_client "c2" agent))
            ∈ clients session_state) as Hin.
  { apply (list_elem_of_lookup_2 _ 1%nat). vm_compute. reflexivity. }
  split; [exact Hin|].
  exact (proj2 (reachable_sockets_unique session_state session_reachable)
           _ _ Hin).
Defined.

Lemma connection_type_fixed_witness :
  Forall keeps_connections two_frames
  ∧ connectionType <$> clients_get 3%nat (clients (run two_frames three_connected))
    = Some spectator.
Proof.
  assert (Forall keeps_connections two_frames) as Hes
    by (repeat constructor).
  split; [exact Hes|].
  exact (proj2 (connection_type_fixed two_frames three_connected 3%nat Hes)).
Defined.


Lemma rejected_frame_dropped_witness :
  ¬ sender_is_spectator 1%nat three_connected
  ∧ passes (OFFER offer_free) 1%nat three_connected = false
  ∧ onMessage 1000 (Some (OFFER offer_free)) 1%nat three_connected
    = three_connected.
Proof.
  assert (¬ sender_is_spectator 1%nat three_connected) as Hrole by done.
  assert (passes (OFFER offer_free) 1%nat three_connected = false) as Hpass
    by (vm_compute; reflexivity).
  split_and!; [exact Hrole | exact Hpass |].
  exact (proj1 (rejected_frame_dropped 1000 (OFFER offer_free) 1%nat
                  three_connected Hrole eq_refl Hpass)).
Defined.

Lemma chat_relayed_witness :
  chat_from chat_from_B ≠ "system"
  ∧ {| rcpt := 3%nat; rcpt_type := spectator; body := Frame (CHAT chat_from_B) |}
      ∈ sent (onMessage 1000 (Some (CHAT chat_from_B)) 2%nat three_connected).
Proof.
  assert (chat_from chat_from_B ≠ "system") as Hfrom by done.
  split; [exact Hfrom|].
  destruct (chat_relayed 1000 chat_from_B 2%nat three_connected Hfrom)
    as (_ & Hall & _).
  apply (Hall 3%nat (sample_client "c3" spectator)).
  - apply (list_elem_of_lookup_2 _ 2%nat). reflexivity.
  - done.
  - vm_compute. reflexivity.
Defined.


End MoreSamples.
